(** * Page replacement simulator (June14Brown.py): FIFO, LRU and OPT

    A shallow embedding of the three replacement policies and of the driver
    [run_algorithm], followed by the properties of the specification.

    Python objects are mutable and a method may raise after it has already
    changed [self]; a method is therefore a function from the instance to an
    outcome (normal return or exception) paired with the instance as the
    call leaves it. *)

From Stdlib Require Import ZArith List Lia DecimalString.
From stdpp Require Import base tactics option list gmap sets fin_sets strings.

Set Warnings "-clear-no-such-hyp".

Open Scope Z_scope.

(** ** Exceptions and outcomes *)

Inductive PyError : Type :=
  | ValueError (msg : string)
  | IndexError (msg : string)
  | TypeError (msg : string).

Inductive result (A : Type) : Type :=
  | Ok (a : A)
  | Raise (e : PyError).

Arguments Ok {A} a.
Arguments Raise {A} e.

(** ** The instance: the three attributes set by [__init__] *)

Record ReplacementAlgorithm : Type := Build_RA {
  page_frame_count : Z;
  page_fault_count : Z;
  page_frames : list Z
}.

Definition set_page_fault_count (n : Z) (self : ReplacementAlgorithm) :=
  {| page_frame_count := page_frame_count self;
     page_fault_count := n;
     page_frames := page_frames self |}.

Definition set_page_frames (l : list Z) (self : ReplacementAlgorithm) :=
  {| page_frame_count := page_frame_count self;
     page_fault_count := page_fault_count self;
     page_frames := l |}.

(** ** Methods: state and exception monad *)

Definition M (A : Type) : Type :=
  ReplacementAlgorithm -> result A * ReplacementAlgorithm.

#[global] Instance M_ret : MRet M := fun A a self => (Ok a, self).

#[global] Instance M_bind : MBind M := fun A B k m self =>
  match m self with
  | (Ok a, self') => k a self'
  | (Raise e, self') => (Raise e, self')
  end.

Definition raise {A : Type} (e : PyError) : M A := fun self => (Raise e, self).

Definition get_self : M ReplacementAlgorithm := fun self => (Ok self, self).

Definition put_self (self' : ReplacementAlgorithm) : M unit :=
  fun _ => (Ok tt, self').

(** ** Python list primitives used by the source *)

(** [x in l] *)
Definition py_in (x : Z) (l : list Z) : bool := bool_decide (x ∈ l).

(** [len(l)] *)
Definition len (l : list Z) : Z := Z.of_nat (length l).

(** [l.index(x)]: position of the first occurrence, [ValueError] if none. *)
Fixpoint py_index (x : Z) (l : list Z) : result Z :=
  match l with
  | [] => Raise (ValueError "x is not in list")
  | y :: l' =>
      if decide (y = x) then Ok 0
      else match py_index x l' with
           | Ok i => Ok (i + 1)
           | Raise e => Raise e
           end
  end.

(** [l.remove(x)]: drops the first occurrence, [ValueError] if none. *)
Fixpoint py_remove (x : Z) (l : list Z) : result (list Z) :=
  match l with
  | [] => Raise (ValueError "list.remove(x): x not in list")
  | y :: l' =>
      if decide (y = x) then Ok l'
      else match py_remove x l' with
           | Ok r => Ok (y :: r)
           | Raise e => Raise e
           end
  end.

(** [self.page_fault_count += 1] *)
Definition incr_page_fault_count : M unit :=
  self ← get_self;
  put_self (set_page_fault_count (page_fault_count self + 1) self).

(** [self.page_frames.pop(0)] *)
Definition page_frames_pop0 : M Z :=
  self ← get_self;
  match page_frames self with
  | [] => raise (IndexError "pop from empty list")
  | x :: l' => put_self (set_page_frames l' self) ;; mret x
  end.

(** [self.page_frames.append(x)] *)
Definition page_frames_append (x : Z) : M unit :=
  self ← get_self;
  put_self (set_page_frames (page_frames self ++ [x]) self).

(** [self.page_frames.remove(x)] *)
Definition page_frames_remove (x : Z) : M unit :=
  self ← get_self;
  match py_remove x (page_frames self) with
  | Ok l' => put_self (set_page_frames l' self)
  | Raise e => raise e
  end.

(** ** [ReplacementAlgorithm.__init__] and [get_page_fault_count] *)

Definition init (page_frame_count : Z) : result ReplacementAlgorithm :=
  if page_frame_count <? 0
  then Raise (ValueError "Page frame count cannot be negative")
  else Ok {| page_frame_count := page_frame_count;
             page_fault_count := 0;
             page_frames := [] |}.

Definition get_page_fault_count (self : ReplacementAlgorithm) : Z :=
  page_fault_count self.

(** ** [FIFOReplacementAlgorithm.insert] *)

Definition FIFO_insert (page_number : Z) : M unit :=
  self ← get_self;
  if negb (py_in page_number (page_frames self)) then
    incr_page_fault_count ;;
    (self ← get_self;
     if len (page_frames self) >=? page_frame_count self
     then page_frames_pop0 ;; mret tt
     else mret tt) ;;
    page_frames_append page_number
  else mret tt.

(** ** [LRUReplacementAlgorithm.insert] *)

Definition LRU_insert (page_number : Z) : M unit :=
  self ← get_self;
  if negb (py_in page_number (page_frames self)) then
    incr_page_fault_count ;;
    (self ← get_self;
     if len (page_frames self) >=? page_frame_count self
     then page_frames_pop0 ;; mret tt
     else mret tt) ;;
    page_frames_append page_number
  else
    page_frames_remove page_number ;;
    page_frames_append page_number.

(** ** [OPTReplacementAlgorithm.insert] *)

(** The [for frame in self.page_frames] loop, with its two loop variables;
    the [break] returns at once. *)
Fixpoint OPT_scan (frames future_references : list Z)
    (furthest_use page_to_remove : Z) : result Z :=
  match frames with
  | [] => Ok page_to_remove
  | frame :: frames' =>
      if negb (py_in frame future_references) then Ok frame
      else
        match py_index frame future_references with
        | Raise e => Raise e
        | Ok next_use =>
            if next_use >? furthest_use
            then OPT_scan frames' future_references next_use frame
            else OPT_scan frames' future_references furthest_use page_to_remove
        end
  end.

Definition OPT_insert (page_number : Z) (future_references : list Z) : M unit :=
  self ← get_self;
  if negb (py_in page_number (page_frames self)) then
    incr_page_fault_count ;;
    (self ← get_self;
     if len (page_frames self) >=? page_frame_count self
     then
       match OPT_scan (page_frames self) future_references (-1) (-1) with
       | Raise e => raise e
       | Ok page_to_remove => page_frames_remove page_to_remove
       end
     else mret tt) ;;
    page_frames_append page_number
  else mret tt.

(** ** The driver [run_algorithm] *)

Inductive algorithm_class : Type :=
  | FIFOReplacementAlgorithm
  | LRUReplacementAlgorithm
  | OPTReplacementAlgorithm.

(** [algorithm.insert(page_number, *extra)]: FIFO and LRU take one argument,
    OPT takes two; any other arity is a [TypeError]. *)
Definition insert (cls : algorithm_class) (page_number : Z)
    (extra : option (list Z)) : M unit :=
  match cls, extra with
  | FIFOReplacementAlgorithm, None => FIFO_insert page_number
  | LRUReplacementAlgorithm, None => LRU_insert page_number
  | OPTReplacementAlgorithm, Some future_references =>
      OPT_insert page_number future_references
  | _, _ => raise (TypeError "insert(): wrong number of positional arguments")
  end.

(** Truth value of the optional argument: [None] and [[]] are false. *)
Definition truthy (future_references : option (list Z)) : bool :=
  match future_references with
  | None | Some [] => false
  | Some (_ :: _) => true
  end.

(** [future_references[i+1:]] *)
Definition slice_from (future_references : option (list Z)) (i : nat) : list Z :=
  match future_references with
  | None => []
  | Some l => drop (S i) l
  end.

(** The [for i, page_number in enumerate(reference_string)] loop, from
    index [i] on. *)
Fixpoint run_loop (cls : algorithm_class) (future_references : option (list Z))
    (i : nat) (reference_string : list Z) : M unit :=
  match reference_string with
  | [] => mret tt
  | page_number :: rest =>
      (if truthy future_references
       then insert cls page_number (Some (slice_from future_references i))
       else insert cls page_number None) ;;
      run_loop cls future_references (S i) rest
  end.

Definition run_algorithm (cls : algorithm_class) (reference_string : list Z)
    (page_frame_count : Z) (future_references : option (list Z)) : result Z :=
  match init page_frame_count with
  | Raise e => Raise e
  | Ok algorithm =>
      match run_loop cls future_references 0 reference_string algorithm with
      | (Ok _, algorithm') => Ok (get_page_fault_count algorithm')
      | (Raise e, _) => Raise e
      end
  end.

(** ** The scenarios of the source's unit tests

    The first reference string is the one of [test_fifo_algorithm],
    [test_lru_algorithm] and [test_opt_algorithm] with three frames. *)

Definition ref1 : list Z := [7;0;1;2;0;3;0;4;2;3;0;3;2;1;2;0;1;7;0;1].
Definition ref2 : list Z := [4;6;4;8;6;3;6;0;5;9;2;1;0;4;6;3;0;6;8;4].

Example test_case_1 :
  run_algorithm FIFOReplacementAlgorithm ref1 3 None = Ok 15 /\
  run_algorithm LRUReplacementAlgorithm ref1 3 None = Ok 12 /\
  run_algorithm OPTReplacementAlgorithm ref1 3 (Some ref1) = Ok 9.
Proof. repeat split; vm_compute; reflexivity. Qed.

(** On the second reference string with four frames the code counts 14, 15
    and 11 faults (the string has nine distinct pages). *)
Example test_case_2 :
  run_algorithm FIFOReplacementAlgorithm ref2 4 None = Ok 14 /\
  run_algorithm LRUReplacementAlgorithm ref2 4 None = Ok 15 /\
  run_algorithm OPTReplacementAlgorithm ref2 4 (Some ref2) = Ok 11.
Proof. repeat split; vm_compute; reflexivity. Qed.

(** * Properties *)

(** ** Equations of the three [insert] methods, case by case *)

Ltac run_method :=
  unfold FIFO_insert, LRU_insert, OPT_insert, incr_page_fault_count,
    page_frames_pop0, page_frames_append, page_frames_remove, get_self,
    put_self, raise, set_page_fault_count, set_page_frames;
  unfold mbind, M_bind, mret, M_ret; simpl.

Lemma py_in_true x l : py_in x l = true <-> x ∈ l.
Proof. unfold py_in. apply bool_decide_eq_true. Qed.

Lemma py_in_false x l : py_in x l = false <-> x ∉ l.
Proof. unfold py_in. apply bool_decide_eq_false. Qed.

Lemma geb_true a b : (a >=? b) = true <-> b <= a.
Proof. rewrite Z.geb_leb. apply Z.leb_le. Qed.

Lemma geb_false a b : (a >=? b) = false <-> a < b.
Proof. rewrite Z.geb_leb. apply Z.leb_gt. Qed.

Section InsertEquations.
Variables (c f : Z) (frames : list Z) (p : Z).

Let self := Build_RA c f frames.

Lemma FIFO_insert_hit :
  p ∈ frames -> FIFO_insert p self = (Ok tt, self).
Proof.
  intros Hin. run_method. apply py_in_true in Hin. rewrite Hin. reflexivity.
Qed.

Lemma FIFO_insert_room :
  p ∉ frames -> len frames < c ->
  FIFO_insert p self = (Ok tt, Build_RA c (f + 1) (frames ++ [p])).
Proof.
  intros Hin Hlen. run_method. apply py_in_false in Hin. rewrite Hin. simpl.
  apply geb_false in Hlen. rewrite Hlen. reflexivity.
Qed.

Lemma FIFO_insert_evict victim rest :
  p ∉ frames -> c <= len frames -> frames = victim :: rest ->
  FIFO_insert p self = (Ok tt, Build_RA c (f + 1) (rest ++ [p])).
Proof.
  intros Hin Hlen Hfr. run_method. apply py_in_false in Hin. rewrite Hin. simpl.
  apply geb_true in Hlen. rewrite Hlen. subst frames. reflexivity.
Qed.

Lemma FIFO_insert_empty :
  frames = [] -> c <= 0 ->
  FIFO_insert p self =
    (Raise (IndexError "pop from empty list"), Build_RA c (f + 1) []).
Proof.
  intros Hfr Hc. run_method. subst frames. simpl.
  assert (H : (len [] >=? c) = true) by (apply geb_true; unfold len; simpl; lia).
  rewrite H. reflexivity.
Qed.

Lemma LRU_insert_room :
  p ∉ frames -> len frames < c ->
  LRU_insert p self = (Ok tt, Build_RA c (f + 1) (frames ++ [p])).
Proof.
  intros Hin Hlen. run_method. apply py_in_false in Hin. rewrite Hin. simpl.
  apply geb_false in Hlen. rewrite Hlen. reflexivity.
Qed.

Lemma LRU_insert_evict victim rest :
  p ∉ frames -> c <= len frames -> frames = victim :: rest ->
  LRU_insert p self = (Ok tt, Build_RA c (f + 1) (rest ++ [p])).
Proof.
  intros Hin Hlen Hfr. run_method. apply py_in_false in Hin. rewrite Hin. simpl.
  apply geb_true in Hlen. rewrite Hlen. subst frames. reflexivity.
Qed.

Lemma LRU_insert_empty :
  frames = [] -> c <= 0 ->
  LRU_insert p self =
    (Raise (IndexError "pop from empty list"), Build_RA c (f + 1) []).
Proof.
  intros Hfr Hc. run_method. subst frames. simpl.
  assert (H : (len [] >=? c) = true) by (apply geb_true; unfold len; simpl; lia).
  rewrite H. reflexivity.
Qed.

Lemma LRU_insert_hit rest :
  py_remove p frames = Ok rest ->
  LRU_insert p self = (Ok tt, Build_RA c f (rest ++ [p])).
Proof.
  intros Hrm. run_method.
  assert (Hin : py_in p frames = true).
  { apply py_in_true. clear self. revert rest Hrm.
    induction frames as [|y l IH]; simpl; intros rest Hrm; [discriminate|].
    destruct (decide (y = p)) as [->|Hne]; [set_solver|].
    destruct (py_remove p l); [|discriminate].
    apply elem_of_cons. right. eapply IH. reflexivity. }
  rewrite Hin. simpl. rewrite Hrm. reflexivity.
Qed.

Lemma OPT_insert_hit future :
  p ∈ frames -> OPT_insert p future self = (Ok tt, self).
Proof.
  intros Hin. run_method. apply py_in_true in Hin. rewrite Hin. reflexivity.
Qed.

Lemma OPT_insert_room future :
  p ∉ frames -> len frames < c ->
  OPT_insert p future self = (Ok tt, Build_RA c (f + 1) (frames ++ [p])).
Proof.
  intros Hin Hlen. run_method. apply py_in_false in Hin. rewrite Hin. simpl.
  apply geb_false in Hlen. rewrite Hlen. reflexivity.
Qed.

Lemma OPT_insert_evict future victim rest :
  p ∉ frames -> c <= len frames ->
  OPT_scan frames future (-1) (-1) = Ok victim ->
  py_remove victim frames = Ok rest ->
  OPT_insert p future self = (Ok tt, Build_RA c (f + 1) (rest ++ [p])).
Proof.
  intros Hin Hlen Hscan Hrm. run_method. apply py_in_false in Hin.
  rewrite Hin. simpl. apply geb_true in Hlen. rewrite Hlen, Hscan.
  simpl. rewrite Hrm. reflexivity.
Qed.

Lemma OPT_insert_empty future :
  frames = [] -> c <= 0 ->
  OPT_insert p future self =
    (Raise (ValueError "list.remove(x): x not in list"),
     Build_RA c (f + 1) []).
Proof.
  intros Hfr Hc. run_method. subst frames. simpl.
  assert (H : (len [] >=? c) = true) by (apply geb_true; unfold len; simpl; lia).
  rewrite H. reflexivity.
Qed.
End InsertEquations.

(** ** [list.remove] and [list.index] *)

Lemma py_remove_split x l :
  x ∈ l ->
  exists l1 l2, l = l1 ++ x :: l2 /\ (x ∉ l1) /\ py_remove x l = Ok (l1 ++ l2).
Proof.
  induction l as [|y l IH]; intros Hin; [inversion Hin|].
  simpl. destruct (decide (y = x)) as [->|Hne].
  - exists [], l. repeat split. apply not_elem_of_nil.
  - apply elem_of_cons in Hin as [Heq|Hin]; [congruence|].
    destruct (IH Hin) as (l1 & l2 & -> & Hl1 & Hrm).
    exists (y :: l1), l2. rewrite Hrm. repeat split.
    rewrite not_elem_of_cons. split; [congruence|exact Hl1].
Qed.

Lemma py_remove_absent x l :
  x ∉ l -> py_remove x l = Raise (ValueError "list.remove(x): x not in list").
Proof.
  induction l as [|y l IH]; intros Hin; [reflexivity|].
  apply not_elem_of_cons in Hin as [Hne Hin]. simpl.
  destruct (decide (y = x)); [congruence|]. rewrite (IH Hin). reflexivity.
Qed.

Lemma py_remove_inv x l r :
  py_remove x l = Ok r ->
  exists l1 l2, l = l1 ++ x :: l2 /\ (x ∉ l1) /\ r = l1 ++ l2.
Proof.
  intros Hrm. destruct (decide (x ∈ l)) as [Hin|Hin].
  - destruct (py_remove_split x l Hin) as (l1 & l2 & Hl & Hl1 & Hrm').
    exists l1, l2. rewrite Hrm in Hrm'. inversion Hrm'. auto.
  - rewrite (py_remove_absent x l Hin) in Hrm. discriminate.
Qed.

Lemma py_index_present x l :
  x ∈ l -> exists i, py_index x l = Ok i /\ 0 <= i < len l.
Proof.
  unfold len. induction l as [|y l IH]; intros Hin; [inversion Hin|].
  simpl py_index. destruct (decide (y = x)) as [->|Hne].
  - exists 0. split; [reflexivity|]. simpl length. lia.
  - apply elem_of_cons in Hin as [Heq|Hin]; [congruence|].
    destruct (IH Hin) as (i & -> & Hi). exists (i + 1).
    split; [reflexivity|]. simpl length. lia.
Qed.

(** [l.index(x)] is the position of the first occurrence of [x]. *)
Lemma py_index_first x l i :
  py_index x l = Ok i ->
  0 <= i /\ l !! Z.to_nat i = Some x /\
  forall j, (j < Z.to_nat i)%nat -> l !! j ≠ Some x.
Proof.
  revert i. induction l as [|y l IH]; intros i Hi; [discriminate|].
  simpl in Hi. destruct (decide (y = x)) as [->|Hne].
  - inversion Hi; subst. repeat split; [lia|]. intros j Hj. simpl in Hj. lia.
  - destruct (py_index x l) as [k|] eqn:Hk; [|discriminate].
    inversion Hi; subst. destruct (IH k eq_refl) as (Hk0 & Hlk & Hfirst).
    replace (Z.to_nat (k + 1)) with (S (Z.to_nat k)) by lia.
    repeat split; [lia|exact Hlk|].
    intros [|j] Hj; simpl; [congruence|]. apply Hfirst. lia.
Qed.

(** Two pages with the same first position are the same page. *)
Lemma py_index_inj x y l i :
  py_index x l = Ok i -> py_index y l = Ok i -> x = y.
Proof.
  intros Hx Hy. apply py_index_first in Hx as (_ & Hx & _).
  apply py_index_first in Hy as (_ & Hy & _). congruence.
Qed.

(** ** The victim chosen by the OPT scan *)

(** A list with an element outside [future] splits at the first such one. *)
Lemma first_unused_split (frames future : list Z) :
  (exists x, x ∈ frames /\ x ∉ future) ->
  exists l1 v l2, frames = l1 ++ v :: l2 /\ (v ∉ future) /\
                  forall y, y ∈ l1 -> y ∈ future.
Proof.
  induction frames as [|a l IH]; intros (x & Hx & Hnot); [inversion Hx|].
  destruct (decide (a ∈ future)) as [Ha|Ha].
  - apply elem_of_cons in Hx as [->|Hx]; [contradiction|].
    destruct IH as (l1 & v & l2 & -> & Hv & Hl1); [eauto|].
    exists (a :: l1), v, l2. repeat split; [exact Hv|].
    intros y Hy. apply elem_of_cons in Hy as [->|Hy]; auto.
  - exists [], a, l. repeat split; [exact Ha|]. intros y Hy. inversion Hy.
Qed.

(** The scan stops at the first frame that is absent from the lookahead,
    whatever it has recorded before. *)
Lemma OPT_scan_unused l1 v l2 future furthest_use page_to_remove :
  v ∉ future -> (forall y, y ∈ l1 -> y ∈ future) ->
  OPT_scan (l1 ++ v :: l2) future furthest_use page_to_remove = Ok v.
Proof.
  intros Hv. revert furthest_use page_to_remove.
  induction l1 as [|a l1 IH]; intros fu ptr Hl1; simpl.
  - apply py_in_false in Hv. rewrite Hv. reflexivity.
  - assert (Ha : a ∈ future) by (apply Hl1; set_solver).
    destruct (py_index_present a future Ha) as (i & Hi & _).
    apply py_in_true in Ha. rewrite Ha, Hi. simpl.
    destruct (i >? fu); apply IH; intros y Hy; apply Hl1; set_solver.
Qed.

(** When every frame occurs in the lookahead, the scan returns either the
    page it started with (no frame beats [furthest_use]) or a frame whose
    first occurrence is later than [furthest_use] and no earlier than that
    of any other frame. *)
Lemma OPT_scan_all_used frames future furthest_use page_to_remove :
  (forall x, x ∈ frames -> x ∈ future) ->
  exists v, OPT_scan frames future furthest_use page_to_remove = Ok v /\
    ((v = page_to_remove /\
      forall x, x ∈ frames ->
        exists i, py_index x future = Ok i /\ i <= furthest_use) \/
     (v ∈ frames /\
      exists j, py_index v future = Ok j /\ furthest_use < j /\
        forall x, x ∈ frames ->
          exists i, py_index x future = Ok i /\ i <= j)).
Proof.
  revert furthest_use page_to_remove.
  induction frames as [|a l IH]; intros fu ptr Hall; simpl.
  - exists ptr. split; [reflexivity|]. left. split; [reflexivity|].
    intros x Hx. inversion Hx.
  - assert (Ha : a ∈ future) by (apply Hall; set_solver).
    assert (Hl : forall x, x ∈ l -> x ∈ future)
      by (intros x Hx; apply Hall; set_solver).
    destruct (py_index_present a future Ha) as (i & Hi & _).
    apply py_in_true in Ha. rewrite Ha, Hi. simpl.
    destruct (i >? fu) eqn:Hcmp.
    + apply Z.gtb_lt in Hcmp.
      destruct (IH i a Hl) as (v & Hv & [[-> Hle]|(Hin & j & Hj & Hlt & Hle)]).
      * exists a. split; [exact Hv|]. right. split; [set_solver|].
        exists i. repeat split; [exact Hi|exact Hcmp|].
        intros x Hx. apply elem_of_cons in Hx as [->|Hx]; [|auto].
        exists i. split; [exact Hi|lia].
      * exists v. split; [exact Hv|]. right. split; [set_solver|].
        exists j. repeat split; [exact Hj|lia|].
        intros x Hx. apply elem_of_cons in Hx as [->|Hx]; [|auto].
        exists i. split; [exact Hi|lia].
    + assert (Hge : i <= fu).
      { destruct (Z.gtb_spec i fu); [discriminate|lia]. }
      destruct (IH fu ptr Hl) as (v & Hv & [[-> Hle]|(Hin & j & Hj & Hlt & Hle)]).
      * exists ptr. split; [exact Hv|]. left. split; [reflexivity|].
        intros x Hx. apply elem_of_cons in Hx as [->|Hx]; [|auto].
        exists i. split; [exact Hi|exact Hge].
      * exists v. split; [exact Hv|]. right. split; [set_solver|].
        exists j. repeat split; [exact Hj|exact Hlt|].
        intros x Hx. apply elem_of_cons in Hx as [->|Hx]; [|auto].
        exists i. split; [exact Hi|lia].
Qed.

Lemma first_occurrence_unique (v : Z) (l1 l2 l1' l2' : list Z) :
  l1 ++ v :: l2 = l1' ++ v :: l2' -> v ∉ l1 -> v ∉ l1' ->
  l1 = l1' /\ l2 = l2'.
Proof.
  revert l1'. induction l1 as [|a l1 IH]; intros [|a' l1'] Heq H1 H1'; simpl in Heq.
  - inversion Heq. auto.
  - inversion Heq; subst. exfalso. apply H1'. set_solver.
  - inversion Heq; subst. exfalso. apply H1. set_solver.
  - inversion Heq; subst. apply not_elem_of_cons in H1 as [_ H1].
    apply not_elem_of_cons in H1' as [_ H1'].
    destruct (IH l1' H2 H1 H1') as [-> ->]. auto.
Qed.

(** What the scan of a non-empty frame list returns, started as the source
    starts it, with [furthest_use = -1] and [page_to_remove = -1]. *)
Lemma OPT_victim_spec (frames future : list Z) :
  frames ≠ [] ->
  exists victim,
    OPT_scan frames future (-1) (-1) = Ok victim /\ victim ∈ frames /\
    ((exists x, x ∈ frames /\ x ∉ future) ->
       exists l1 l2, frames = l1 ++ victim :: l2 /\ (victim ∉ future) /\
                     forall y, y ∈ l1 -> y ∈ future) /\
    ((forall x, x ∈ frames -> x ∈ future) ->
       exists j, py_index victim future = Ok j /\
         forall x, x ∈ frames -> x ≠ victim ->
           exists i, py_index x future = Ok i /\ i < j).
Proof.
  intros Hne.
  destruct (decide (Forall (fun x => x ∈ future) frames)) as [Hall|Hsome].
  - rewrite Forall_forall in Hall.
    destruct (OPT_scan_all_used frames future (-1) (-1) Hall)
      as (v & Hv & [[-> Hle]|(Hin & j & Hj & Hlt & Hle)]).
    + destruct frames as [|a l]; [congruence|].
      destruct (Hle a) as (i & Hi & Hi'); [set_solver|].
      apply py_index_first in Hi. lia.
    + exists v. repeat split; [exact Hv|exact Hin| |].
      * intros (x & Hx & Hnot). exfalso. auto.
      * intros _. exists j. split; [exact Hj|]. intros x Hx Hxv.
        destruct (Hle x Hx) as (i & Hi & Hij). exists i. split; [exact Hi|].
        destruct (decide (i = j)) as [->|]; [|lia].
        exfalso. apply Hxv. eapply py_index_inj; eassumption.
  - apply not_Forall_Exists in Hsome; [|intros x; apply _].
    apply Exists_exists in Hsome as (x & Hx & Hnot).
    destruct (first_unused_split frames future) as (l1 & v & l2 & -> & Hv & Hl1);
      [eauto|].
    exists v. repeat split.
    + apply OPT_scan_unused; assumption.
    + set_solver.
    + intros _. exists l1, l2. auto.
    + intros Hall. exfalso. apply Hv, Hall. set_solver.
Qed.

(** A fault of OPT on a full, non-empty frame list returns normally: one
    resident page is removed and the new page is appended. *)
Lemma OPT_insert_evict_Ok (c f : Z) (frames : list Z) (p : Z) (future : list Z) :
  p ∉ frames -> c <= len frames -> frames ≠ [] ->
  exists l1 victim l2,
    frames = l1 ++ victim :: l2 /\ (victim ∉ l1) /\
    OPT_insert p future (Build_RA c f frames)
      = (Ok tt, Build_RA c (f + 1) (l1 ++ l2 ++ [p])).
Proof.
  intros Hp Hfull Hne.
  destruct (OPT_victim_spec frames future Hne) as (v & Hscan & Hin & _).
  destruct (py_remove_split v frames Hin) as (l1 & l2 & Hfr & Hl1 & Hrm).
  exists l1, v, l2. split; [exact Hfr|]. split; [exact Hl1|].
  rewrite (OPT_insert_evict c f frames p future v (l1 ++ l2) Hp Hfull Hscan Hrm).
  rewrite <- app_assoc. reflexivity.
Qed.

(** ** C1: the OPT eviction rule *)

(** C1. For an OPT instance whose frame set is full (and holds at least one
    page), [insert] of a non-resident page returns normally, counts one
    fault, removes exactly one resident page, the victim, and appends the
    new page.  If some resident page does not occur in the lookahead, the
    victim is the first such page in the iteration order of the frame set
    (every frame before it occurs in the lookahead, it does not).
    Otherwise every resident page occurs in the lookahead and the victim is
    the one whose first occurrence there has the largest index: every other
    resident page occurs strictly earlier. *)
Theorem OPT_eviction_rule (c f : Z) (frames : list Z) (p : Z) (future : list Z) :
  p ∉ frames -> c <= len frames -> frames ≠ [] ->
  exists l1 victim l2,
    frames = l1 ++ victim :: l2 /\ (victim ∉ l1) /\
    OPT_insert p future (Build_RA c f frames)
      = (Ok tt, Build_RA c (f + 1) (l1 ++ l2 ++ [p])) /\
    ((exists x, x ∈ frames /\ x ∉ future) ->
       (victim ∉ future) /\ forall y, y ∈ l1 -> y ∈ future) /\
    ((forall x, x ∈ frames -> x ∈ future) ->
       exists j, py_index victim future = Ok j /\
         forall x, x ∈ frames -> x ≠ victim ->
           exists i, py_index x future = Ok i /\ i < j).
Proof.
  intros Hp Hfull Hne.
  destruct (OPT_victim_spec frames future Hne) as (v & Hscan & Hin & HA & HB).
  destruct (py_remove_split v frames Hin) as (l1 & l2 & Hfr & Hl1 & Hrm).
  exists l1, v, l2.
  split; [exact Hfr|]. split; [exact Hl1|]. split; [|split; [|exact HB]].
  - rewrite (OPT_insert_evict c f frames p future v (l1 ++ l2) Hp Hfull Hscan Hrm).
    rewrite <- app_assoc. reflexivity.
  - intros Hex. destruct (HA Hex) as (l1' & l2' & Hfr' & Hv & Hl1').
    split; [exact Hv|].
    assert (Hv' : v ∉ l1') by (intros Hc; apply Hv, Hl1', Hc).
    rewrite Hfr in Hfr'.
    destruct (first_occurrence_unique v l1 l2 l1' l2' Hfr' Hl1 Hv') as [-> _].
    exact Hl1'.
Qed.

Lemma OPT_eviction_rule_witness :
  exists l1 victim l2,
    [7; 0; 1] = l1 ++ victim :: l2 /\ (victim ∉ l1) /\
    OPT_insert 2 [0; 3; 0; 4] (Build_RA 3 3 [7; 0; 1])
      = (Ok tt, Build_RA 3 (3 + 1) (l1 ++ l2 ++ [2])) /\
    ((exists x, x ∈ [7; 0; 1] /\ x ∉ [0; 3; 0; 4]) ->
       (victim ∉ [0; 3; 0; 4]) /\ forall y, y ∈ l1 -> y ∈ [0; 3; 0; 4]) /\
    ((forall x, x ∈ [7; 0; 1] -> x ∈ [0; 3; 0; 4]) ->
       exists j, py_index victim [0; 3; 0; 4] = Ok j /\
         forall x, x ∈ [7; 0; 1] -> x ≠ victim ->
           exists i, py_index x [0; 3; 0; 4] = Ok i /\ i < j).
Proof.
  apply (OPT_eviction_rule 3 3 [7; 0; 1] 2 [0; 3; 0; 4]).
  - apply (bool_decide_unpack _). vm_compute. exact I.
  - unfold len. simpl. lia.
  - discriminate.
Defined.

(** ** Every [insert] is one step of demand paging *)

(** The six ways a call of [insert] can go, whatever the policy: a call with
    the wrong number of arguments, a hit (which may move the page to the
    tail), a fault with a free frame, a fault that evicts one page, and a
    fault on an instance that has no frame at all. *)
Inductive paging_step (p : Z) :
    ReplacementAlgorithm -> result unit -> ReplacementAlgorithm -> Prop :=
  | step_arity self msg :
      paging_step p self (Raise (TypeError msg)) self
  | step_hit self :
      p ∈ page_frames self ->
      paging_step p self (Ok tt) self
  | step_hit_move c f l1 l2 :
      p ∉ l1 ->
      paging_step p (Build_RA c f (l1 ++ p :: l2)) (Ok tt)
        (Build_RA c f (l1 ++ l2 ++ [p]))
  | step_room c f frames :
      p ∉ frames -> len frames < c ->
      paging_step p (Build_RA c f frames) (Ok tt)
        (Build_RA c (f + 1) (frames ++ [p]))
  | step_evict c f l1 victim l2 :
      p ∉ l1 ++ victim :: l2 -> c <= len (l1 ++ victim :: l2) -> victim ∉ l1 ->
      paging_step p (Build_RA c f (l1 ++ victim :: l2)) (Ok tt)
        (Build_RA c (f + 1) (l1 ++ l2 ++ [p]))
  | step_no_frame c f e :
      c <= 0 ->
      paging_step p (Build_RA c f []) (Raise e) (Build_RA c (f + 1) []).

Lemma len_nonneg l : 0 <= len l.
Proof. unfold len. lia. Qed.

(** The four ways a call that returns normally can go. *)
Lemma paging_step_Ok_inv p c f frames self' :
  paging_step p (Build_RA c f frames) (Ok tt) self' ->
  (p ∈ frames /\ self' = Build_RA c f frames) \/
  (exists l1 l2, frames = l1 ++ p :: l2 /\ (p ∉ l1) /\
                 self' = Build_RA c f (l1 ++ l2 ++ [p])) \/
  ((p ∉ frames) /\ len frames < c /\
   self' = Build_RA c (f + 1) (frames ++ [p])) \/
  ((p ∉ frames) /\ c <= len frames /\
   exists l1 victim l2, frames = l1 ++ victim :: l2 /\ (victim ∉ l1) /\
                        self' = Build_RA c (f + 1) (l1 ++ l2 ++ [p])).
Proof.
  intros Hstep. inversion Hstep; subst.
  - left. auto.
  - right. left. eauto.
  - right. right. left. auto.
  - right. right. right. eauto 8.
Qed.

Lemma FIFO_insert_step p self r self' :
  FIFO_insert p self = (r, self') -> paging_step p self r self'.
Proof.
  destruct self as [c f frames]. intros Hrun.
  destruct (decide (p ∈ frames)) as [Hin|Hin].
  { rewrite FIFO_insert_hit in Hrun by exact Hin. inversion Hrun; subst.
    apply step_hit. exact Hin. }
  destruct (Z_lt_le_dec (len frames) c) as [Hlt|Hge].
  { rewrite FIFO_insert_room in Hrun by assumption. inversion Hrun; subst.
    apply step_room; assumption. }
  destruct frames as [|victim rest].
  { rewrite FIFO_insert_empty in Hrun by (unfold len in *; simpl in *; auto; lia).
    inversion Hrun; subst. apply step_no_frame. unfold len in Hge. simpl in Hge. lia. }
  rewrite (FIFO_insert_evict c f _ p victim rest Hin Hge eq_refl) in Hrun.
  inversion Hrun; subst.
  apply (step_evict p c f [] victim rest); [exact Hin|exact Hge|apply not_elem_of_nil].
Qed.

Lemma LRU_insert_step p self r self' :
  LRU_insert p self = (r, self') -> paging_step p self r self'.
Proof.
  destruct self as [c f frames]. intros Hrun.
  destruct (decide (p ∈ frames)) as [Hin|Hin].
  { destruct (py_remove_split p frames Hin) as (l1 & l2 & -> & Hl1 & Hrm).
    rewrite (LRU_insert_hit c f _ p _ Hrm) in Hrun. inversion Hrun; subst.
    rewrite <- app_assoc. apply step_hit_move. exact Hl1. }
  destruct (Z_lt_le_dec (len frames) c) as [Hlt|Hge].
  { rewrite LRU_insert_room in Hrun by assumption. inversion Hrun; subst.
    apply step_room; assumption. }
  destruct frames as [|victim rest].
  { rewrite LRU_insert_empty in Hrun by (unfold len in *; simpl in *; auto; lia).
    inversion Hrun; subst. apply step_no_frame. unfold len in Hge. simpl in Hge. lia. }
  rewrite (LRU_insert_evict c f _ p victim rest Hin Hge eq_refl) in Hrun.
  inversion Hrun; subst.
  apply (step_evict p c f [] victim rest); [exact Hin|exact Hge|apply not_elem_of_nil].
Qed.

Lemma OPT_insert_step p future self r self' :
  OPT_insert p future self = (r, self') -> paging_step p self r self'.
Proof.
  destruct self as [c f frames]. intros Hrun.
  destruct (decide (p ∈ frames)) as [Hin|Hin].
  { rewrite OPT_insert_hit in Hrun by exact Hin. inversion Hrun; subst.
    apply step_hit. exact Hin. }
  destruct (Z_lt_le_dec (len frames) c) as [Hlt|Hge].
  { rewrite OPT_insert_room in Hrun by assumption. inversion Hrun; subst.
    apply step_room; assumption. }
  destruct (decide (frames = [])) as [->|Hne].
  { rewrite OPT_insert_empty in Hrun by (unfold len in *; simpl in *; auto; lia).
    inversion Hrun; subst. apply step_no_frame. unfold len in Hge. simpl in Hge. lia. }
  destruct (OPT_insert_evict_Ok c f frames p future Hin Hge Hne)
    as (l1 & v & l2 & -> & Hl1 & Heq).
  rewrite Heq in Hrun. inversion Hrun; subst.
  apply step_evict; assumption.
Qed.

Lemma insert_step cls p extra self r self' :
  insert cls p extra self = (r, self') -> paging_step p self r self'.
Proof.
  destruct cls, extra as [future|]; simpl; intros Hrun;
    try (inversion Hrun; subst; apply step_arity).
  - eapply FIFO_insert_step; eassumption.
  - eapply LRU_insert_step; eassumption.
  - eapply OPT_insert_step; eassumption.
Qed.

(** ** Instances reachable from the constructor *)

(** An instance of class [cls] constructed with [c] frames, after any
    number of calls of [insert], with any arguments and whether the calls
    returned or raised (a caller may catch the exception and go on). *)
Inductive reachable (cls : algorithm_class) (c : Z) : ReplacementAlgorithm -> Prop :=
  | reachable_init self :
      init c = Ok self -> reachable cls c self
  | reachable_insert self page extra r self' :
      reachable cls c self ->
      insert cls page extra self = (r, self') ->
      reachable cls c self'.

(** The invariant of the data model. *)
Definition frames_ok (c : Z) (self : ReplacementAlgorithm) : Prop :=
  page_frame_count self = c /\ 0 <= c /\
  len (page_frames self) <= c /\ NoDup (page_frames self).

Lemma init_frames_ok c self : init c = Ok self -> frames_ok c self.
Proof.
  unfold init. destruct (c <? 0) eqn:Hc; [discriminate|].
  intros Heq. inversion Heq; subst. apply Z.ltb_ge in Hc.
  repeat split; simpl; [exact Hc|unfold len; simpl; lia|apply NoDup_nil_2].
Qed.

Lemma len_app l x : len (l ++ [x]) = len l + 1.
Proof. unfold len. rewrite length_app. simpl. lia. Qed.

Lemma len_middle l1 (v : Z) l2 : len (l1 ++ v :: l2) = len (l1 ++ l2) + 1.
Proof. unfold len. rewrite !length_app. simpl. lia. Qed.

Lemma NoDup_snoc (l : list Z) x : NoDup l -> x ∉ l -> NoDup (l ++ [x]).
Proof.
  intros Hl Hx. apply NoDup_app. split; [exact Hl|]. split.
  - intros y Hy Hy'. apply list_elem_of_singleton in Hy'. subst. auto.
  - apply NoDup_singleton.
Qed.

Lemma NoDup_middle (l1 : list Z) v l2 :
  NoDup (l1 ++ v :: l2) -> NoDup (l1 ++ l2) /\ v ∉ l1 ++ l2.
Proof.
  intros H. apply NoDup_app in H as (H1 & H12 & H2).
  apply NoDup_cons in H2 as [Hv H2]. split.
  - apply NoDup_app. repeat split; [exact H1| |exact H2].
    intros x Hx Hx'. apply (H12 x Hx). apply elem_of_cons. auto.
  - rewrite elem_of_app. intros [Hv1|Hv2]; [|auto].
    apply (H12 v Hv1). apply elem_of_cons. auto.
Qed.

Lemma paging_step_frames_ok p c self r self' :
  paging_step p self r self' -> frames_ok c self -> frames_ok c self'.
Proof.
  intros Hstep (Hc & Hc0 & Hlen & Hnd). simpl in *. unfold frames_ok.
  destruct Hstep; simpl in *; subst; auto.
  - apply NoDup_middle in Hnd as [Hnd Hp]. rewrite app_assoc.
    rewrite len_middle in Hlen. rewrite len_app.
    repeat split; auto. apply NoDup_snoc; assumption.
  - rewrite len_app. repeat split; auto; [lia|]. apply NoDup_snoc; assumption.
  - apply NoDup_middle in Hnd as [Hnd Hv]. rewrite app_assoc.
    rewrite len_middle in Hlen. rewrite len_app.
    repeat split; auto. apply NoDup_snoc; [assumption|].
    intros Hp. apply H. rewrite elem_of_app in *. rewrite elem_of_cons. tauto.
Qed.

Lemma reachable_frames_ok cls c self :
  reachable cls c self -> frames_ok c self.
Proof.
  induction 1 as [self Hinit|self page extra r self' _ IH Hrun].
  - apply init_frames_ok. exact Hinit.
  - eapply paging_step_frames_ok; [eapply insert_step; eassumption|exact IH].
Qed.

(** ** C8: size bound and absence of duplicates *)

(** C8. For every policy and every capacity [c >= 0], an instance
    constructed with [c] frames holds, after any sequence of calls of
    [insert], at most [c] pages and no page twice. *)
Theorem frame_set_invariants (cls : algorithm_class) (c : Z)
    (self : ReplacementAlgorithm) :
  0 <= c -> reachable cls c self ->
  len (page_frames self) <= c /\ NoDup (page_frames self).
Proof.
  intros _ Hreach. apply reachable_frames_ok in Hreach as (_ & _ & Hlen & Hnd).
  split; assumption.
Qed.

Lemma frame_set_invariants_witness :
  len (page_frames (Build_RA 2 3 [0; 1])) <= 2 /\
  NoDup (page_frames (Build_RA 2 3 [0; 1])).
Proof.
  apply (frame_set_invariants LRUReplacementAlgorithm 2); [lia|].
  apply (reachable_insert _ _ (Build_RA 2 3 [1; 0]) 1 None (Ok tt));
    [|vm_compute; reflexivity].
  apply (reachable_insert _ _ (Build_RA 2 2 [7; 1]) 0 None (Ok tt));
    [|vm_compute; reflexivity].
  apply (reachable_insert _ _ (Build_RA 2 1 [7]) 1 None (Ok tt));
    [|vm_compute; reflexivity].
  apply (reachable_insert _ _ (Build_RA 2 0 []) 7 None (Ok tt));
    [|vm_compute; reflexivity].
  apply reachable_init. vm_compute. reflexivity.
Defined.

(** ** C10: the page just inserted is resident *)

(** The call of [insert] with the number of arguments its class expects. *)
Definition insert_args (cls : algorithm_class) (future_references : list Z)
    : option (list Z) :=
  match cls with
  | OPTReplacementAlgorithm => Some future_references
  | _ => None
  end.

Lemma insert_returns cls page future self :
  1 <= page_frame_count self ->
  exists self', insert cls page (insert_args cls future) self = (Ok tt, self').
Proof.
  destruct self as [c f frames]. simpl. intros Hc.
  destruct (decide (page ∈ frames)) as [Hin|Hin].
  { destruct cls; simpl.
    - rewrite FIFO_insert_hit by exact Hin. eauto.
    - destruct (py_remove_split page frames Hin) as (l1 & l2 & _ & _ & Hrm).
      rewrite (LRU_insert_hit c f frames page _ Hrm). eauto.
    - rewrite OPT_insert_hit by exact Hin. eauto. }
  destruct (Z_lt_le_dec (len frames) c) as [Hlt|Hge].
  { destruct cls; simpl.
    - rewrite FIFO_insert_room by assumption. eauto.
    - rewrite LRU_insert_room by assumption. eauto.
    - rewrite OPT_insert_room by assumption. eauto. }
  assert (Hne : frames ≠ []).
  { intros ->. unfold len in Hge. simpl in Hge. lia. }
  destruct cls; simpl.
  - destruct frames as [|v rest]; [congruence|].
    rewrite (FIFO_insert_evict c f _ page v rest Hin Hge eq_refl). eauto.
  - destruct frames as [|v rest]; [congruence|].
    rewrite (LRU_insert_evict c f _ page v rest Hin Hge eq_refl). eauto.
  - destruct (OPT_insert_evict_Ok c f frames page future Hin Hge Hne)
      as (l1 & v & l2 & _ & _ & Heq).
    rewrite Heq. eauto.
Qed.

Lemma last_snoc3 (l1 l2 : list Z) x : last (l1 ++ l2 ++ [x]) = Some x.
Proof. rewrite app_assoc. apply last_snoc. Qed.

(** C10. For every policy and every instance with at least one frame,
    [insert] returns normally and leaves the inserted page resident; when
    the call was a fault, the page is the last element of the frame list and
    the fault counter has grown by one. *)
Theorem inserted_page_resident (cls : algorithm_class) (page : Z)
    (future : list Z) (self : ReplacementAlgorithm) :
  1 <= page_frame_count self ->
  exists self',
    insert cls page (insert_args cls future) self = (Ok tt, self') /\
    page ∈ page_frames self' /\
    (page ∉ page_frames self ->
       last (page_frames self') = Some page /\
       page_fault_count self' = page_fault_count self + 1).
Proof.
  intros Hc. destruct (insert_returns cls page future self Hc) as (self' & Hrun).
  exists self'. split; [exact Hrun|].
  apply insert_step in Hrun. inversion Hrun; subst; simpl in *.
  - split; [assumption|]. intros Hnot. contradiction.
  - split; [rewrite !elem_of_app; right; right; apply list_elem_of_singleton; reflexivity|].
    intros Hnot. exfalso. apply Hnot. rewrite elem_of_app, elem_of_cons. auto.
  - split; [rewrite elem_of_app; right; apply list_elem_of_singleton; reflexivity|].
    intros _. split; [apply last_snoc|reflexivity].
  - split; [rewrite !elem_of_app; right; right; apply list_elem_of_singleton; reflexivity|].
    intros _. split; [apply last_snoc3|reflexivity].
Qed.

Lemma inserted_page_resident_witness :
  exists self',
    insert FIFOReplacementAlgorithm 2 (insert_args FIFOReplacementAlgorithm [])
      (Build_RA 3 3 [7; 0; 1]) = (Ok tt, self') /\
    2 ∈ page_frames self' /\
    (2 ∉ page_frames (Build_RA 3 3 [7; 0; 1]) ->
       last (page_frames self') = Some 2 /\
       page_fault_count self' = page_fault_count (Build_RA 3 3 [7; 0; 1]) + 1).
Proof.
  apply (inserted_page_resident FIFOReplacementAlgorithm 2 [] (Build_RA 3 3 [7; 0; 1])).
  simpl. lia.
Defined.

(** ** C5: a negative capacity is rejected by the constructor *)

(** C5. For every negative capacity the constructor raises the
    [ValueError] of the source (the configuration error); the driver
    propagates it whatever the policy and the reference string, so no fault
    count is produced, and no instance exists on which [insert] could be
    called. *)
Theorem negative_capacity_rejected (cls : algorithm_class) (refs : list Z)
    (c : Z) (future : option (list Z)) :
  c < 0 ->
  init c = Raise (ValueError "Page frame count cannot be negative") /\
  run_algorithm cls refs c future
    = Raise (ValueError "Page frame count cannot be negative") /\
  forall self, ~ reachable cls c self.
Proof.
  intros Hc.
  assert (Hinit : init c = Raise (ValueError "Page frame count cannot be negative")).
  { unfold init. apply Z.ltb_lt in Hc. rewrite Hc. reflexivity. }
  split; [exact Hinit|]. split.
  - unfold run_algorithm. rewrite Hinit. reflexivity.
  - intros self Hreach. induction Hreach as [self H|]; [|assumption].
    rewrite Hinit in H. discriminate.
Qed.

Lemma negative_capacity_rejected_witness :
  init (-1) = Raise (ValueError "Page frame count cannot be negative") /\
  run_algorithm OPTReplacementAlgorithm ref1 (-1) (Some ref1)
    = Raise (ValueError "Page frame count cannot be negative") /\
  forall self, ~ reachable OPTReplacementAlgorithm (-1) self.
Proof.
  apply (negative_capacity_rejected OPTReplacementAlgorithm ref1 (-1) (Some ref1)).
  lia.
Defined.

(** ** C2 and C9: an instance without any frame *)

Lemma run_loop_cons cls future i page rest self :
  run_loop cls future i (page :: rest) self =
    match (if truthy future
           then insert cls page (Some (slice_from future i))
           else insert cls page None) self with
    | (Ok _, self') => run_loop cls future (S i) rest self'
    | (Raise e, self') => (Raise e, self')
    end.
Proof. reflexivity. Qed.

(** The exception that the eviction step raises on an empty frame list:
    [pop(0)] for FIFO and LRU, [remove(-1)] for OPT. *)
Definition eviction_error (cls : algorithm_class) : PyError :=
  match cls with
  | OPTReplacementAlgorithm => ValueError "list.remove(x): x not in list"
  | _ => IndexError "pop from empty list"
  end.

Lemma insert_no_frame cls page future c f :
  c <= 0 ->
  insert cls page (insert_args cls future) (Build_RA c f [])
    = (Raise (eviction_error cls), Build_RA c (f + 1) []).
Proof.
  intros Hc. destruct cls; simpl.
  - apply FIFO_insert_empty; auto.
  - apply LRU_insert_empty; auto.
  - apply OPT_insert_empty; auto.
Qed.

(** C2. With zero frames the run does not complete: on every non-empty
    reference string the first [insert] raises, for each of the three
    policies, and the driver propagates the exception instead of returning
    a fault count. *)
Theorem capacity_zero_run_raises (page : Z) (refs : list Z) :
  run_algorithm FIFOReplacementAlgorithm (page :: refs) 0 None
    = Raise (IndexError "pop from empty list") /\
  run_algorithm LRUReplacementAlgorithm (page :: refs) 0 None
    = Raise (IndexError "pop from empty list") /\
  run_algorithm OPTReplacementAlgorithm (page :: refs) 0 (Some (page :: refs))
    = Raise (ValueError "list.remove(x): x not in list").
Proof.
  unfold run_algorithm. change (init 0) with (Ok (Build_RA 0 0 [])).
  cbv iota. rewrite !run_loop_cons.
  change (truthy None) with false.
  change (truthy (Some (page :: refs))) with true. cbv iota.
  pose proof (insert_no_frame FIFOReplacementAlgorithm page [] 0 0
                (Z.le_refl 0)) as HF.
  pose proof (insert_no_frame LRUReplacementAlgorithm page [] 0 0
                (Z.le_refl 0)) as HL.
  pose proof (insert_no_frame OPTReplacementAlgorithm page
                (slice_from (Some (page :: refs)) 0) 0 0 (Z.le_refl 0)) as HO.
  unfold insert_args in HF, HL, HO. rewrite HF, HL, HO. repeat split.
Qed.

Example capacity_zero_single_access :
  run_algorithm FIFOReplacementAlgorithm [7] 0 None
    = Raise (IndexError "pop from empty list").
Proof. vm_compute. reflexivity. Qed.

Lemma reachable_zero_empty cls self :
  reachable cls 0 self -> page_frame_count self = 0 /\ page_frames self = [].
Proof.
  intros Hreach. apply reachable_frames_ok in Hreach as (Hc & _ & Hlen & _).
  split; [exact Hc|]. destruct (page_frames self); [reflexivity|].
  unfold len in Hlen. simpl in Hlen. lia.
Qed.

(** C9. On an instance constructed with zero frames, every call of
    [insert] (the page is never resident) raises from the eviction step and
    leaves the instance with its fault counter increased by one and nothing
    else changed: the failed call is not undone. *)
Theorem capacity_zero_insert_not_atomic (cls : algorithm_class) (page : Z)
    (future : list Z) (self : ReplacementAlgorithm) :
  reachable cls 0 self ->
  (page ∉ page_frames self) /\
  insert cls page (insert_args cls future) self
    = (Raise (eviction_error cls),
       set_page_fault_count (page_fault_count self + 1) self).
Proof.
  intros Hreach. destruct (reachable_zero_empty cls self Hreach) as [Hc Hfr].
  destruct self as [c f frames]. simpl in *. subst. split.
  - apply not_elem_of_nil.
  - rewrite insert_no_frame by lia. reflexivity.
Qed.

Lemma capacity_zero_insert_not_atomic_witness :
  (7 ∉ page_frames (Build_RA 0 1 [])) /\
  insert OPTReplacementAlgorithm 7 (insert_args OPTReplacementAlgorithm [0; 1])
    (Build_RA 0 1 [])
    = (Raise (eviction_error OPTReplacementAlgorithm),
       set_page_fault_count (page_fault_count (Build_RA 0 1 []) + 1)
         (Build_RA 0 1 [])).
Proof.
  apply (capacity_zero_insert_not_atomic OPTReplacementAlgorithm 7 [0; 1]).
  apply (reachable_insert _ _ (Build_RA 0 0 []) 3 (Some [7])
           (Raise (eviction_error OPTReplacementAlgorithm)));
    [|vm_compute; reflexivity].
  apply reachable_init. vm_compute. reflexivity.
Defined.

(** ** C7: with enough frames every page faults exactly once *)

(** The lookahead argument with which [main] and the unit tests run each
    policy: the whole reference string for OPT, none for FIFO and LRU. *)
Definition full_lookahead (cls : algorithm_class) (refs : list Z)
    : option (list Z) :=
  match cls with
  | OPTReplacementAlgorithm => Some refs
  | _ => None
  end.

(** The number of distinct page identifiers of a reference string. *)
Definition distinct_pages (refs : list Z) : Z := len (remove_dups refs).

(** The driver passes the arguments that the class of the instance expects. *)
Definition well_called (cls : algorithm_class) (future : option (list Z)) : Prop :=
  match cls with
  | OPTReplacementAlgorithm => truthy future = true
  | _ => future = None
  end.

Lemma run_loop_step cls future i page rest self :
  well_called cls future ->
  run_loop cls future i (page :: rest) self =
    match insert cls page (insert_args cls (slice_from future i)) self with
    | (Ok _, self') => run_loop cls future (S i) rest self'
    | (Raise e, self') => (Raise e, self')
    end.
Proof.
  intros Hcall. rewrite run_loop_cons.
  destruct cls; simpl in Hcall; subst; try reflexivity.
  rewrite Hcall. reflexivity.
Qed.

Lemma full_lookahead_well_called cls page refs :
  well_called cls (full_lookahead cls (page :: refs)).
Proof. destruct cls; reflexivity. Qed.

Lemma size_distinct (refs : list Z) :
  Z.of_nat (size (list_to_set refs : gset Z)) = distinct_pages refs.
Proof.
  unfold distinct_pages, len. f_equal.
  rewrite <- (size_list_to_set (C := gset Z) (remove_dups refs))
    by apply NoDup_remove_dups.
  f_equal. apply set_eq. intros x.
  rewrite !elem_of_list_to_set, elem_of_remove_dups. reflexivity.
Qed.

Lemma len_size (frames : list Z) :
  NoDup frames -> len frames = Z.of_nat (size (list_to_set frames : gset Z)).
Proof. intros Hnd. unfold len. rewrite size_list_to_set by exact Hnd. reflexivity. Qed.

Lemma list_to_set_move (l1 l2 : list Z) (p : Z) :
  (list_to_set (l1 ++ l2 ++ [p]) : gset Z) = list_to_set (l1 ++ p :: l2).
Proof.
  apply set_eq. intros x. rewrite !elem_of_list_to_set.
  rewrite !elem_of_app, !elem_of_cons, elem_of_nil. tauto.
Qed.

Lemma size_new_page (p : Z) (X R : gset Z) :
  p ∉ X ->
  size (({[p]} ∪ R) ∖ X) = S (size (R ∖ ({[p]} ∪ X))).
Proof.
  intros Hp.
  assert (Heq : ({[p]} ∪ R) ∖ X = {[p]} ∪ (R ∖ ({[p]} ∪ X))).
  { apply set_eq. intros x.
    rewrite !elem_of_difference, !elem_of_union, elem_of_difference,
      elem_of_union, elem_of_singleton.
    destruct (decide (x = p)) as [->|Hne]; tauto. }
  rewrite Heq, size_union, size_singleton; [reflexivity|].
  intros x Hx Hx'. apply elem_of_singleton in Hx. subst x.
  apply elem_of_difference in Hx' as [_ Hx']. apply Hx'.
  apply elem_of_union. left. apply elem_of_singleton. reflexivity.
Qed.

(** While the frames suffice for every page still to come, no call evicts:
    the loop returns normally and counts the pages that were not resident
    when it started. *)
Lemma cold_loop cls future :
  well_called cls future ->
  forall rest i self,
    NoDup (page_frames self) ->
    Z.of_nat (size (list_to_set (page_frames self) ∪ list_to_set rest : gset Z))
      <= page_frame_count self ->
    exists self',
      run_loop cls future i rest self = (Ok tt, self') /\
      page_fault_count self' = page_fault_count self
        + Z.of_nat (size (list_to_set rest ∖ list_to_set (page_frames self) : gset Z)).
Proof.
  intros Hcall. induction rest as [|p rest IH]; intros i self Hnd Hsize.
  { exists self. split; [reflexivity|]. simpl.
    replace (∅ ∖ list_to_set (page_frames self) : gset Z) with (∅ : gset Z)
      by set_solver.
    rewrite size_empty. lia. }
  rewrite run_loop_step by exact Hcall.
  destruct self as [c0 f0 frames0].
  cbn [page_frames page_frame_count page_fault_count] in *.
  rewrite list_to_set_cons in Hsize |- *.
  pose (X := list_to_set frames0 : gset Z).
  pose (R := list_to_set rest : gset Z).
  assert (HX : forall x, x ∈ X <-> x ∈ frames0)
    by (intros x; apply elem_of_list_to_set).
  fold X R in Hsize |- *.
  assert (Hfit : (size X <= size (X ∪ ({[p]} ∪ R)))%nat)
    by (apply subseteq_size; set_solver).
  assert (Hc : 1 <= c0).
  { assert (size ({[p]} : gset Z) <= size (X ∪ ({[p]} ∪ R)))%nat as Hp
      by (apply subseteq_size; set_solver).
    rewrite size_singleton in Hp. lia. }
  destruct (insert_returns cls p (slice_from future i) (Build_RA c0 f0 frames0) Hc)
    as (self1 & Hrun).
  rewrite Hrun.
  assert (Hok : frames_ok c0 (Build_RA c0 f0 frames0)).
  { repeat split; simpl; [lia| |exact Hnd]. rewrite len_size by exact Hnd.
    fold X. lia. }
  pose proof (insert_step _ _ _ _ _ _ Hrun) as Hstep.
  pose proof (paging_step_frames_ok _ _ _ _ _ Hstep Hok) as (_ & _ & _ & Hnd1).
  assert (Hhit : p ∈ X -> X ∪ R = X ∪ ({[p]} ∪ R) /\ R ∖ X = ({[p]} ∪ R) ∖ X).
  { intros Hp. split; apply set_eq; intros x;
      rewrite ?elem_of_difference, !elem_of_union, elem_of_singleton;
      destruct (decide (x = p)) as [->|Hne]; tauto. }
  apply paging_step_Ok_inv in Hstep
    as [[Hp ->]|[(l1 & l2 & Hfr & Hl1 & ->)|[(Hp & Hlen & ->)|(Hp & Hlen & _)]]].
  - (* hit *)
    destruct Hhit as [Hh1 Hh2]; [apply HX; assumption|].
    destruct (IH (S i) (Build_RA c0 f0 frames0) Hnd) as (self' & Hloop & Hcount).
    { simpl. fold X R. rewrite Hh1. exact Hsize. }
    exists self'. split; [exact Hloop|]. rewrite Hcount. simpl. fold X R.
    rewrite Hh2. reflexivity.
  - (* hit that moves the page to the tail *)
    destruct Hhit as [Hh1 Hh2].
    { apply HX. rewrite Hfr, elem_of_app, elem_of_cons. auto. }
    destruct (IH (S i) (Build_RA c0 f0 (l1 ++ l2 ++ [p])) Hnd1)
      as (self' & Hloop & Hcount).
    { simpl. rewrite list_to_set_move, <- Hfr. fold X R. rewrite Hh1. exact Hsize. }
    exists self'. split; [exact Hloop|]. rewrite Hcount. simpl.
    rewrite list_to_set_move, <- Hfr. fold X R. rewrite Hh2. reflexivity.
  - (* fault with a free frame *)
    assert (HpX : p ∉ X) by (rewrite HX; assumption).
    assert (Hcomm : X ∪ {[p]} = {[p]} ∪ X) by set_solver.
    destruct (IH (S i) (Build_RA c0 (f0 + 1) (frames0 ++ [p])) Hnd1)
      as (self' & Hloop & Hcount).
    { simpl. rewrite list_to_set_snoc_L. fold X R.
      replace (X ∪ {[p]} ∪ R) with (X ∪ ({[p]} ∪ R)) by set_solver. exact Hsize. }
    exists self'. split; [exact Hloop|]. rewrite Hcount. simpl.
    rewrite list_to_set_snoc_L. fold X R.
    rewrite (size_new_page p X R HpX), Hcomm. lia.
  - (* an eviction would need more distinct pages than frames *)
    exfalso.
    assert (HpX : p ∉ X) by (rewrite HX; assumption).
    assert (Hlt : (size X < size (X ∪ ({[p]} ∪ R)))%nat).
    { apply subset_size. set_solver. }
    rewrite (len_size _ Hnd) in Hlen. fold X in Hlen. lia.
Qed.

(** C7. For every policy and every reference string, when the capacity is
    at least the number of distinct pages of the string, the driver returns
    that number: each page faults exactly once. *)
Theorem cold_miss_law (cls : algorithm_class) (refs : list Z) (c : Z) :
  distinct_pages refs <= c ->
  run_algorithm cls refs c (full_lookahead cls refs) = Ok (distinct_pages refs).
Proof.
  intros Hc. unfold run_algorithm, init.
  assert (H0 : 0 <= distinct_pages refs) by apply len_nonneg.
  destruct (c <? 0) eqn:Hneg; [apply Z.ltb_lt in Hneg; lia|].
  destruct refs as [|p refs]; [reflexivity|].
  destruct (cold_loop cls (full_lookahead cls (p :: refs))
              (full_lookahead_well_called cls p refs) (p :: refs) 0%nat
              (Build_RA c 0 [])) as (self' & Hloop & Hcount).
  - apply NoDup_nil_2.
  - simpl page_frames. simpl page_frame_count.
    replace (list_to_set [] ∪ list_to_set (p :: refs) : gset Z)
      with (list_to_set (p :: refs) : gset Z) by set_solver.
    rewrite <- size_distinct in Hc. exact Hc.
  - rewrite Hloop. unfold get_page_fault_count. rewrite Hcount.
    rewrite <- size_distinct. simpl page_fault_count. simpl page_frames.
    replace (list_to_set (p :: refs) ∖ list_to_set [] : gset Z)
      with (list_to_set (p :: refs) : gset Z) by set_solver.
    reflexivity.
Qed.

Lemma cold_miss_law_witness :
  run_algorithm OPTReplacementAlgorithm ref2 9
    (full_lookahead OPTReplacementAlgorithm ref2) = Ok (distinct_pages ref2).
Proof.
  apply (cold_miss_law OPTReplacementAlgorithm ref2 9). vm_compute. discriminate.
Defined.

(** ** Time stamps: the order of the frame list *)

(** [in_stamp_order log bound frames]: every resident page has a stamp
    below [bound], and the stamps grow strictly along the frame list. *)
Definition in_stamp_order (log : gmap Z nat) (bound : nat) (frames : list Z) : Prop :=
  (forall q, q ∈ frames -> exists t, log !! q = Some t /\ (t < bound)%nat) /\
  (forall a b, [a; b] `sublist_of` frames ->
     exists ta tb, log !! a = Some ta /\ log !! b = Some tb /\ (ta < tb)%nat).

Lemma in_stamp_order_nil log bound : in_stamp_order log bound [].
Proof.
  split.
  - intros q Hq. inversion Hq.
  - intros a b Hsub. apply sublist_nil_r in Hsub. discriminate.
Qed.

Lemma in_stamp_order_bound log bound bound' frames :
  (bound <= bound')%nat ->
  in_stamp_order log bound frames -> in_stamp_order log bound' frames.
Proof.
  intros Hle [Hb Hs]. split; [|exact Hs].
  intros q Hq. destruct (Hb q Hq) as (t & Ht & Hlt). exists t. split; [exact Ht|lia].
Qed.

Lemma in_stamp_order_sublist log bound frames frames' :
  frames' `sublist_of` frames ->
  in_stamp_order log bound frames -> in_stamp_order log bound frames'.
Proof.
  intros Hsub [Hb Hs]. split.
  - intros q Hq. apply Hb. eapply sublist_subseteq; eassumption.
  - intros a b Hab. apply Hs. etrans; eassumption.
Qed.

Lemma sublist_pair_snoc (a b p : Z) (l : list Z) :
  [a; b] `sublist_of` l ++ [p] ->
  [a; b] `sublist_of` l \/ (b = p /\ a ∈ l).
Proof.
  intros Hsub. apply sublist_app_r in Hsub as (k1 & k2 & Heq & Hk1 & Hk2).
  apply sublist_cons_r in Hk2 as [Hk2|(k2' & -> & Hk2)].
  - apply sublist_nil_r in Hk2. subst k2. rewrite app_nil_r in Heq. subst k1.
    left. exact Hk1.
  - apply sublist_nil_r in Hk2. subst k2'.
    destruct k1 as [|x [|y k1]]; simpl in Heq; inversion Heq; subst.
    + right. split; [reflexivity|].
      eapply sublist_subseteq; [exact Hk1|]. apply elem_of_cons. auto.
    + destruct k1; discriminate.
Qed.

(** Appending a page that gets the newest stamp. *)
Lemma in_stamp_order_snoc log bound frames p :
  in_stamp_order log bound frames -> p ∉ frames ->
  in_stamp_order (<[p := bound]> log) (S bound) (frames ++ [p]).
Proof.
  intros [Hb Hs] Hp. split.
  - intros q Hq. apply elem_of_app in Hq as [Hq|Hq].
    + destruct (Hb q Hq) as (t & Ht & Hlt). exists t.
      rewrite lookup_insert_ne by (intros ->; contradiction). split; [exact Ht|lia].
    + apply list_elem_of_singleton in Hq. subst q. exists bound.
      rewrite lookup_insert_eq. split; [reflexivity|lia].
  - intros a b Hab. apply sublist_pair_snoc in Hab as [Hab|[-> Ha]].
    + destruct (Hs a b Hab) as (ta & tb & Hta & Htb & Hlt).
      assert (Ha : a ∈ frames).
      { eapply sublist_subseteq; [exact Hab|]. apply elem_of_cons. auto. }
      assert (Hb' : b ∈ frames).
      { eapply sublist_subseteq; [exact Hab|]. rewrite !elem_of_cons. auto. }
      exists ta, tb.
      rewrite !lookup_insert_ne by (intros ->; contradiction). auto.
    + destruct (Hb a Ha) as (ta & Hta & Hlt). exists ta, bound.
      rewrite lookup_insert_ne by (intros ->; contradiction).
      rewrite lookup_insert_eq. auto.
Qed.

Lemma sublist_middle (l1 l2 : list Z) (v : Z) :
  l1 ++ l2 `sublist_of` l1 ++ v :: l2.
Proof. apply sublist_app; [reflexivity|]. apply sublist_cons. reflexivity. Qed.

(** Moving a resident page to the tail with the newest stamp. *)
Lemma in_stamp_order_move log bound l1 l2 p :
  NoDup (l1 ++ p :: l2) ->
  in_stamp_order log bound (l1 ++ p :: l2) ->
  in_stamp_order (<[p := bound]> log) (S bound) (l1 ++ l2 ++ [p]).
Proof.
  intros Hnd Hord. rewrite app_assoc. apply in_stamp_order_snoc.
  - eapply in_stamp_order_sublist; [apply sublist_middle|exact Hord].
  - apply NoDup_middle in Hnd as [_ Hp]. exact Hp.
Qed.

(** The head of a stamp-ordered frame list carries the oldest stamp. *)
Lemma in_stamp_order_head log bound victim rest q :
  in_stamp_order log bound (victim :: rest) -> q ∈ rest ->
  exists tv tq, log !! victim = Some tv /\ log !! q = Some tq /\ (tv < tq)%nat.
Proof.
  intros [_ Hs] Hq. apply Hs. apply sublist_skip.
  apply list_elem_of_split in Hq as (k1 & k2 & ->).
  apply sublist_inserts_l. apply sublist_skip. apply sublist_nil_l.
Qed.

(** ** C3: FIFO evicts the page that was loaded first *)

(** The time (index in the reference string) at which each page was last
    loaded into a frame: the accesses are replayed through [FIFO_insert] and
    an access is recorded when the page was not resident. *)
Fixpoint FIFO_load_log (self : ReplacementAlgorithm) (i : nat) (refs : list Z)
    (log : gmap Z nat) : gmap Z nat :=
  match refs with
  | [] => log
  | page :: rest =>
      FIFO_load_log (FIFO_insert page self).2 (S i) rest
        (if py_in page (page_frames self) then log else <[page := i]> log)
  end.

Lemma FIFO_insert_Ok_inv p c f frames self' :
  FIFO_insert p (Build_RA c f frames) = (Ok tt, self') ->
  (p ∈ frames /\ self' = Build_RA c f frames) \/
  ((p ∉ frames) /\ len frames < c /\
   self' = Build_RA c (f + 1) (frames ++ [p])) \/
  ((p ∉ frames) /\ c <= len frames /\
   exists victim rest, frames = victim :: rest /\
                       self' = Build_RA c (f + 1) (rest ++ [p])).
Proof.
  intros Hrun. destruct (decide (p ∈ frames)) as [Hin|Hin].
  { rewrite FIFO_insert_hit in Hrun by exact Hin. inversion Hrun. auto. }
  destruct (Z_lt_le_dec (len frames) c) as [Hlt|Hge].
  { rewrite FIFO_insert_room in Hrun by assumption. inversion Hrun. auto. }
  destruct frames as [|victim rest].
  { rewrite FIFO_insert_empty in Hrun; [discriminate|reflexivity|].
    unfold len in Hge. simpl in Hge. lia. }
  rewrite (FIFO_insert_evict c f _ p victim rest Hin Hge eq_refl) in Hrun.
  inversion Hrun. right. right. eauto 6.
Qed.

Lemma FIFO_load_log_ordered c refs :
  forall self i log self',
    frames_ok c self ->
    in_stamp_order log i (page_frames self) ->
    run_loop FIFOReplacementAlgorithm None i refs self = (Ok tt, self') ->
    frames_ok c self' /\
    in_stamp_order (FIFO_load_log self i refs log) (i + length refs)
      (page_frames self').
Proof.
  induction refs as [|p refs IH]; intros self i log self' Hok Hord Hrun.
  { inversion Hrun; subst. simpl. rewrite Nat.add_0_r. auto. }
  rewrite run_loop_cons in Hrun. simpl in Hrun. simpl FIFO_load_log.
  destruct (FIFO_insert p self) as [[[]|e] self1] eqn:Hins; [|discriminate].
  cbn [snd].
  assert (Hok1 : frames_ok c self1).
  { eapply paging_step_frames_ok; [eapply FIFO_insert_step; exact Hins|exact Hok]. }
  simpl length. replace (i + S (length refs))%nat with (S i + length refs)%nat by lia.
  destruct self as [c0 f frames]. simpl in *.
  change (S (i + length refs)) with (S i + length refs)%nat.
  apply FIFO_insert_Ok_inv in Hins
    as [[Hp ->]|[(Hp & Hlen & ->)|(Hp & Hlen & victim & rest & -> & ->)]].
  - apply py_in_true in Hp. rewrite Hp.
    apply (IH _ _ _ _ Hok1); [|exact Hrun].
    eapply in_stamp_order_bound; [|exact Hord]. lia.
  - pose proof Hp as Hp'. apply py_in_false in Hp'. rewrite Hp'.
    apply (IH _ _ _ _ Hok1); [|exact Hrun].
    apply in_stamp_order_snoc; assumption.
  - pose proof Hp as Hp'. apply py_in_false in Hp'. rewrite Hp'.
    apply (IH _ _ _ _ Hok1); [|exact Hrun]. simpl.
    apply in_stamp_order_snoc.
    + eapply in_stamp_order_sublist; [|exact Hord]. apply sublist_cons. reflexivity.
    + intros Hc. apply Hp. apply elem_of_cons. auto.
Qed.

(** C3. Take a FIFO instance constructed with [c] frames that has served the
    reference string [refs].  An [insert] of a resident page returns
    normally and changes nothing.  An [insert] of a non-resident page into
    the full frame set removes the head [victim] of the frame list and
    appends the page; the victim is the resident page that was loaded
    first: every other resident page was last loaded at a later access. *)
Theorem FIFO_eviction_rule (c : Z) (refs : list Z)
    (self0 self : ReplacementAlgorithm) (page : Z) :
  init c = Ok self0 ->
  run_loop FIFOReplacementAlgorithm None 0 refs self0 = (Ok tt, self) ->
  (page ∈ page_frames self -> FIFO_insert page self = (Ok tt, self)) /\
  (page ∉ page_frames self -> c <= len (page_frames self) ->
   forall victim rest, page_frames self = victim :: rest ->
     FIFO_insert page self
       = (Ok tt, Build_RA c (page_fault_count self + 1) (rest ++ [page])) /\
     forall q, q ∈ rest ->
       exists tv tq,
         FIFO_load_log self0 0 refs ∅ !! victim = Some tv /\
         FIFO_load_log self0 0 refs ∅ !! q = Some tq /\ (tv < tq)%nat).
Proof.
  intros Hinit Hrun.
  pose proof (init_frames_ok c self0 Hinit) as Hok0.
  assert (Hord0 : in_stamp_order ∅ 0 (page_frames self0)).
  { unfold init in Hinit. destruct (c <? 0); [discriminate|].
    inversion Hinit. apply in_stamp_order_nil. }
  destruct (FIFO_load_log_ordered c refs self0 0%nat ∅ self Hok0 Hord0 Hrun)
    as [(Hc & _) Hord].
  destruct self as [c' f frames]. simpl in *. subst c'. split.
  - intros Hin. apply FIFO_insert_hit. exact Hin.
  - intros Hp Hfull victim rest ->. split.
    + exact (FIFO_insert_evict c f _ page victim rest Hp Hfull eq_refl).
    + intros q Hq. eapply in_stamp_order_head; eassumption.
Qed.

Lemma FIFO_eviction_rule_witness :
  FIFO_insert 4 (Build_RA 3 6 [2; 3; 0])
    = (Ok tt, Build_RA 3 (6 + 1) ([3; 0] ++ [4])) /\
  forall q, q ∈ [3; 0] ->
    exists tv tq,
      FIFO_load_log (Build_RA 3 0 []) 0 [7; 0; 1; 2; 0; 3; 0] ∅ !! 2 = Some tv /\
      FIFO_load_log (Build_RA 3 0 []) 0 [7; 0; 1; 2; 0; 3; 0] ∅ !! q = Some tq /\
      (tv < tq)%nat.
Proof.
  destruct (FIFO_eviction_rule 3 [7; 0; 1; 2; 0; 3; 0] (Build_RA 3 0 [])
              (Build_RA 3 6 [2; 3; 0]) 4) as [_ Hevict].
  - reflexivity.
  - vm_compute. reflexivity.
  - apply (Hevict ltac:(apply (bool_decide_unpack _); vm_compute; exact I)
             ltac:(unfold len; simpl; lia) 2 [3; 0] eq_refl).
Defined.

(** ** C4: LRU keeps the frame list in order of last use *)

(** The time (index in the reference string) of the last access to each
    page. *)
Fixpoint LRU_access_log (i : nat) (refs : list Z) (log : gmap Z nat)
    : gmap Z nat :=
  match refs with
  | [] => log
  | page :: rest => LRU_access_log (S i) rest (<[page := i]> log)
  end.

(** The stamp of a page is the position of its last occurrence. *)
Lemma LRU_access_log_last refs :
  forall i log q t,
    LRU_access_log i refs log !! q = Some t ->
    (exists j, t = (i + j)%nat /\ refs !! j = Some q /\
               forall k, (j < k)%nat -> refs !! k ≠ Some q) \/
    ((q ∉ refs) /\ log !! q = Some t).
Proof.
  induction refs as [|p refs IH]; intros i log q t Hlog; simpl in Hlog.
  { right. split; [apply not_elem_of_nil|exact Hlog]. }
  destruct (IH _ _ _ _ Hlog) as [(j & -> & Hj & Hlast)|[Hq Hlk]].
  - left. exists (S j). repeat split; [lia|exact Hj|].
    intros [|k] Hk; [lia|]. simpl. apply Hlast. lia.
  - destruct (decide (p = q)) as [->|Hne].
    + rewrite lookup_insert_eq in Hlk. inversion Hlk; subst. left. exists 0%nat.
      repeat split; [lia|].
      intros [|k] Hk; [lia|]. simpl. intros Hc. apply Hq.
      eapply list_elem_of_lookup_2. exact Hc.
    + rewrite lookup_insert_ne in Hlk by exact Hne. right. split; [|exact Hlk].
      rewrite not_elem_of_cons. split; [congruence|exact Hq].
Qed.

Lemma LRU_insert_Ok_inv p c f frames self' :
  LRU_insert p (Build_RA c f frames) = (Ok tt, self') ->
  (exists l1 l2, frames = l1 ++ p :: l2 /\ (p ∉ l1) /\
                 self' = Build_RA c f (l1 ++ l2 ++ [p])) \/
  ((p ∉ frames) /\ len frames < c /\
   self' = Build_RA c (f + 1) (frames ++ [p])) \/
  ((p ∉ frames) /\ c <= len frames /\
   exists victim rest, frames = victim :: rest /\
                       self' = Build_RA c (f + 1) (rest ++ [p])).
Proof.
  intros Hrun. destruct (decide (p ∈ frames)) as [Hin|Hin].
  { destruct (py_remove_split p frames Hin) as (l1 & l2 & Hfr & Hl1 & Hrm).
    rewrite (LRU_insert_hit c f frames p _ Hrm) in Hrun. inversion Hrun.
    left. exists l1, l2. rewrite <- app_assoc. auto. }
  destruct (Z_lt_le_dec (len frames) c) as [Hlt|Hge].
  { rewrite LRU_insert_room in Hrun by assumption. inversion Hrun. auto. }
  destruct frames as [|victim rest].
  { rewrite LRU_insert_empty in Hrun; [discriminate|reflexivity|].
    unfold len in Hge. simpl in Hge. lia. }
  rewrite (LRU_insert_evict c f _ p victim rest Hin Hge eq_refl) in Hrun.
  inversion Hrun. right. right. eauto 6.
Qed.

Lemma LRU_access_log_ordered c refs :
  forall self i log self',
    frames_ok c self ->
    in_stamp_order log i (page_frames self) ->
    run_loop LRUReplacementAlgorithm None i refs self = (Ok tt, self') ->
    frames_ok c self' /\
    in_stamp_order (LRU_access_log i refs log) (i + length refs)
      (page_frames self').
Proof.
  induction refs as [|p refs IH]; intros self i log self' Hok Hord Hrun.
  { inversion Hrun; subst. simpl. rewrite Nat.add_0_r. auto. }
  rewrite run_loop_cons in Hrun. simpl in Hrun. simpl LRU_access_log.
  destruct (LRU_insert p self) as [[[]|e] self1] eqn:Hins; [|discriminate].
  assert (Hok1 : frames_ok c self1).
  { eapply paging_step_frames_ok; [eapply LRU_insert_step; exact Hins|exact Hok]. }
  simpl length. replace (i + S (length refs))%nat with (S i + length refs)%nat by lia.
  destruct self as [c0 f frames]. simpl in Hord.
  destruct Hok as (_ & _ & _ & Hnd). simpl in Hnd.
  apply LRU_insert_Ok_inv in Hins
    as [(l1 & l2 & -> & Hl1 & ->)|[(Hp & Hlen & ->)|(Hp & Hlen & victim & rest & -> & ->)]];
    apply (IH _ _ _ _ Hok1); try exact Hrun; simpl.
  - apply in_stamp_order_move; assumption.
  - apply in_stamp_order_snoc; assumption.
  - apply in_stamp_order_snoc.
    + eapply in_stamp_order_sublist; [|exact Hord]. apply sublist_cons. reflexivity.
    + intros Hc. apply Hp. apply elem_of_cons. auto.
Qed.

(** C4. Take an LRU instance constructed with [c] frames that has served
    the reference string [refs].  An [insert] of a resident page returns
    normally, leaves the fault counter as it is and moves the page to the
    tail of the frame list, the other pages keeping their order.  An
    [insert] of a non-resident page into the full frame set removes the head
    [victim] of the frame list and appends the page; the head is the least
    recently used resident page: every other resident page was last accessed
    later. *)
Theorem LRU_eviction_rule (c : Z) (refs : list Z)
    (self0 self : ReplacementAlgorithm) (page : Z) :
  init c = Ok self0 ->
  run_loop LRUReplacementAlgorithm None 0 refs self0 = (Ok tt, self) ->
  (page ∈ page_frames self ->
   exists l1 l2, page_frames self = l1 ++ page :: l2 /\ (page ∉ l1 ++ l2) /\
     LRU_insert page self
       = (Ok tt, Build_RA c (page_fault_count self) (l1 ++ l2 ++ [page]))) /\
  (page ∉ page_frames self -> c <= len (page_frames self) ->
   forall victim rest, page_frames self = victim :: rest ->
     LRU_insert page self
       = (Ok tt, Build_RA c (page_fault_count self + 1) (rest ++ [page])) /\
     forall q, q ∈ rest ->
       exists tv tq,
         LRU_access_log 0 refs ∅ !! victim = Some tv /\
         LRU_access_log 0 refs ∅ !! q = Some tq /\ (tv < tq)%nat).
Proof.
  intros Hinit Hrun.
  pose proof (init_frames_ok c self0 Hinit) as Hok0.
  assert (Hord0 : in_stamp_order ∅ 0 (page_frames self0)).
  { unfold init in Hinit. destruct (c <? 0); [discriminate|].
    inversion Hinit. apply in_stamp_order_nil. }
  destruct (LRU_access_log_ordered c refs self0 0%nat ∅ self Hok0 Hord0 Hrun)
    as [(Hc & _ & _ & Hnd) Hord].
  destruct self as [c' f frames]. simpl in *. subst c'. split.
  - intros Hin.
    destruct (py_remove_split page frames Hin) as (l1 & l2 & Hfr & Hl1 & Hrm).
    exists l1, l2. split; [exact Hfr|]. split.
    + rewrite Hfr in Hnd. apply NoDup_middle in Hnd as [_ Hp]. exact Hp.
    + rewrite (LRU_insert_hit c f frames page _ Hrm), <- app_assoc. reflexivity.
  - intros Hp Hfull victim rest ->. split.
    + exact (LRU_insert_evict c f _ page victim rest Hp Hfull eq_refl).
    + intros q Hq. eapply in_stamp_order_head; eassumption.
Qed.

Lemma LRU_eviction_rule_witness :
  LRU_insert 3 (Build_RA 3 4 [1; 2; 0])
    = (Ok tt, Build_RA 3 (4 + 1) ([2; 0] ++ [3])) /\
  forall q, q ∈ [2; 0] ->
    exists tv tq,
      LRU_access_log 0 [7; 0; 1; 2; 0] ∅ !! 1 = Some tv /\
      LRU_access_log 0 [7; 0; 1; 2; 0] ∅ !! q = Some tq /\ (tv < tq)%nat.
Proof.
  destruct (LRU_eviction_rule 3 [7; 0; 1; 2; 0] (Build_RA 3 0 [])
              (Build_RA 3 4 [1; 2; 0]) 3) as [_ Hevict].
  - reflexivity.
  - vm_compute. reflexivity.
  - apply (Hevict ltac:(apply (bool_decide_unpack _); vm_compute; exact I)
             ltac:(unfold len; simpl; lia) 1 [2; 0] eq_refl).
Defined.

(** ** Demand paging over sets of resident pages *)

(** Equalities between sets built from singletons are decided pointwise,
    by cases on whether the point is one of the named pages. *)
Ltac page_cases x :=
  repeat match goal with
    | |- context [x = ?y] =>
        lazymatch goal with
        | H : x ≠ y |- _ => fail
        | _ => destruct (decide (x = y)) as [->|?]
        end
    | H : context [x = ?y] |- _ =>
        lazymatch goal with
        | H' : x ≠ y |- _ => fail
        | _ => destruct (decide (x = y)) as [->|?]
        end
    end.

Ltac gset_eq :=
  let x := fresh "x" in
  apply set_eq; intros x; set_unfold; page_cases x; naive_solver.

(** A schedule: the resident set before serving a reference string, and the
    number of faults of one way of serving it by demand paging with [c]
    frames.  A fault either takes a free frame or replaces a resident page
    of the scheduler's choice. *)
Inductive sched (c : Z) : gset Z -> list Z -> nat -> Prop :=
  | sched_nil X :
      sched c X [] 0
  | sched_hit X p refs n :
      p ∈ X -> sched c X refs n -> sched c X (p :: refs) n
  | sched_room X p refs n :
      p ∉ X -> Z.of_nat (size X) < c ->
      sched c ({[p]} ∪ X) refs n -> sched c X (p :: refs) (S n)
  | sched_evict X p v refs n :
      p ∉ X -> v ∈ X ->
      sched c ({[p]} ∪ (X ∖ {[v]})) refs n -> sched c X (p :: refs) (S n).

Lemma size_add (p : Z) (X : gset Z) : p ∉ X -> size ({[p]} ∪ X) = S (size X).
Proof.
  intros Hp. rewrite size_union, size_singleton; [reflexivity|].
  intros x Hx Hx'. apply elem_of_singleton in Hx. subst. contradiction.
Qed.

Lemma size_remove (v : Z) (X : gset Z) : v ∈ X -> S (size (X ∖ {[v]})) = size X.
Proof.
  intros Hv. rewrite <- (size_add v (X ∖ {[v]})) by set_solver.
  f_equal. gset_eq.
Qed.

Lemma size_swap (p v : Z) (X : gset Z) :
  v ∈ X -> p ∉ X -> size ({[p]} ∪ (X ∖ {[v]})) = size X.
Proof.
  intros Hv Hp. rewrite size_add by set_solver. apply size_remove. exact Hv.
Qed.

Section Schedules.
Variable c : Z.

(** One more resident page, while a frame is free, does not cost faults. *)
Lemma sched_add X refs n :
  sched c X refs n ->
  forall v, v ∉ X -> Z.of_nat (size X) < c ->
  exists m, (m <= n)%nat /\ sched c ({[v]} ∪ X) refs m.
Proof.
  induction 1 as [X|X p refs n Hp _ IH|X p refs n Hp Hroom Hs IH
                 |X p w refs n Hp Hw Hs IH]; intros v Hv Hsize.
  - exists 0%nat. split; [lia|constructor].
  - destruct (IH v Hv Hsize) as (m & Hm & Hs').
    exists m. split; [exact Hm|]. apply sched_hit; [set_solver|exact Hs'].
  - destruct (decide (p = v)) as [->|Hne].
    + exists n. split; [lia|]. apply sched_hit; [set_solver|exact Hs].
    + destruct (Z_lt_le_dec (Z.of_nat (size ({[v]} ∪ X))) c) as [Hlt|Hge].
      * destruct (IH v) as (m & Hm & Hs'); [set_solver| |].
        { rewrite size_add in * by assumption. lia. }
        exists (S m). split; [lia|]. apply sched_room; [set_solver|exact Hlt|].
        replace ({[p]} ∪ ({[v]} ∪ X)) with ({[v]} ∪ ({[p]} ∪ X)) by gset_eq.
        exact Hs'.
      * exists (S n). split; [lia|].
        apply (sched_evict c _ p v); [set_solver|set_solver|].
        replace ({[p]} ∪ ({[v]} ∪ X) ∖ {[v]}) with ({[p]} ∪ X) by gset_eq.
        exact Hs.
  - destruct (decide (p = v)) as [->|Hne].
    + destruct (IH w) as (m & Hm & Hs'); [set_solver| |].
      { rewrite size_swap by assumption. exact Hsize. }
      exists m. split; [lia|]. apply sched_hit; [set_solver|].
      replace ({[v]} ∪ X) with ({[w]} ∪ ({[v]} ∪ X ∖ {[w]})) by gset_eq.
      exact Hs'.
    + destruct (IH v) as (m & Hm & Hs'); [set_solver| |].
      { rewrite size_swap by assumption. exact Hsize. }
      exists (S m). split; [lia|].
      apply (sched_evict c _ p w); [set_solver|set_solver|].
      replace ({[p]} ∪ ({[v]} ∪ X) ∖ {[w]})
        with ({[v]} ∪ ({[p]} ∪ X ∖ {[w]})) by gset_eq.
      exact Hs'.
Qed.

(** One resident page less costs at most one more fault. *)
Lemma sched_remove X refs n :
  sched c X refs n ->
  forall Y q, X = {[q]} ∪ Y -> q ∉ Y -> Z.of_nat (size Y) < c ->
  exists m, (m <= S n)%nat /\ sched c Y refs m.
Proof.
  induction 1 as [X|X r refs n Hr Hs IH|X r refs n Hr Hroom Hs IH
                 |X r v refs n Hr Hv Hs IH]; intros Y q -> Hq Hsize.
  - exists 0%nat. split; [lia|constructor].
  - destruct (decide (r = q)) as [->|Hne].
    + exists (S n). split; [lia|]. apply sched_room; assumption.
    + destruct (IH Y q eq_refl Hq Hsize) as (m & Hm & Hs').
      exists m. split; [exact Hm|]. apply sched_hit; [set_solver|exact Hs'].
  - rewrite size_add in Hroom by exact Hq.
    destruct (IH ({[r]} ∪ Y) q) as (m & Hm & Hs'); [gset_eq|set_solver| |].
    { rewrite size_add by set_solver. lia. }
    exists (S m). split; [lia|]. apply sched_room; [set_solver|exact Hsize|exact Hs'].
  - destruct (decide (v = q)) as [->|Hne].
    + exists (S n). split; [lia|]. apply sched_room; [set_solver|exact Hsize|].
      replace ({[r]} ∪ Y) with ({[r]} ∪ ({[q]} ∪ Y) ∖ {[q]}) by gset_eq.
      exact Hs.
    + assert (HvY : v ∈ Y) by set_solver.
      destruct (IH ({[r]} ∪ Y ∖ {[v]}) q) as (m & Hm & Hs');
        [gset_eq|set_solver| |].
      { rewrite size_swap by set_solver. exact Hsize. }
      exists (S m). split; [lia|].
      apply (sched_evict c _ r v); [set_solver|exact HvY|exact Hs'].
Qed.

(** Two resident sets that differ in one page: at most one fault apart. *)
Lemma sched_swap X refs n :
  sched c X refs n ->
  forall Y p q, X = {[q]} ∪ Y -> p ∉ Y -> q ∉ Y -> p ≠ q ->
  exists m, (m <= S n)%nat /\ sched c ({[p]} ∪ Y) refs m.
Proof.
  induction 1 as [X|X r refs n Hr Hs IH|X r refs n Hr Hroom Hs IH
                 |X r v refs n Hr Hv Hs IH]; intros Y p q -> Hp Hq Hpq.
  - exists 0%nat. split; [lia|constructor].
  - destruct (decide (r = q)) as [->|Hne].
    + exists (S n). split; [lia|].
      apply (sched_evict c _ q p); [set_solver|set_solver|].
      replace ({[q]} ∪ ({[p]} ∪ Y) ∖ {[p]}) with ({[q]} ∪ Y) by gset_eq.
      exact Hs.
    + destruct (IH Y p q eq_refl Hp Hq Hpq) as (m & Hm & Hs').
      exists m. split; [exact Hm|]. apply sched_hit; [set_solver|exact Hs'].
  - rewrite size_add in Hroom by exact Hq.
    destruct (decide (r = p)) as [->|Hne].
    + destruct (sched_remove _ _ _ Hs ({[p]} ∪ Y) q) as (m & Hm & Hs');
        [gset_eq|set_solver| |].
      { rewrite size_add by exact Hp. exact Hroom. }
      exists m. split; [lia|]. apply sched_hit; [set_solver|exact Hs'].
    + destruct (IH ({[r]} ∪ Y) p q) as (m & Hm & Hs');
        [gset_eq|set_solver|set_solver|exact Hpq|].
      exists (S m). split; [lia|]. apply sched_room; [set_solver| |].
      { rewrite size_add by exact Hp. exact Hroom. }
      replace ({[r]} ∪ ({[p]} ∪ Y)) with ({[p]} ∪ ({[r]} ∪ Y)) by gset_eq.
      exact Hs'.
  - destruct (decide (r = p)) as [->|Hne]; destruct (decide (v = q)) as [->|Hvq].
    + exists n. split; [lia|]. apply sched_hit; [set_solver|].
      replace ({[p]} ∪ Y) with ({[p]} ∪ ({[q]} ∪ Y) ∖ {[q]}) by gset_eq.
      exact Hs.
    + assert (HvY : v ∈ Y) by set_solver.
      destruct (IH ({[p]} ∪ Y ∖ {[v]}) v q) as (m & Hm & Hs');
        [gset_eq|set_solver|set_solver|exact Hvq|].
      exists m. split; [lia|]. apply sched_hit; [set_solver|].
      replace ({[p]} ∪ Y) with ({[v]} ∪ ({[p]} ∪ Y ∖ {[v]})) by gset_eq.
      exact Hs'.
    + exists (S n). split; [lia|].
      apply (sched_evict c _ r p); [set_solver|set_solver|].
      replace ({[r]} ∪ ({[p]} ∪ Y) ∖ {[p]})
        with ({[r]} ∪ ({[q]} ∪ Y) ∖ {[q]}) by gset_eq.
      exact Hs.
    + assert (HvY : v ∈ Y) by set_solver.
      destruct (IH ({[r]} ∪ Y ∖ {[v]}) p q) as (m & Hm & Hs');
        [gset_eq|set_solver|set_solver|exact Hpq|].
      exists (S m). split; [lia|].
      apply (sched_evict c _ r v); [set_solver|set_solver|].
      replace ({[r]} ∪ ({[p]} ∪ Y) ∖ {[v]})
        with ({[p]} ∪ ({[r]} ∪ Y ∖ {[v]})) by gset_eq.
      exact Hs'.
Qed.

(** [sooner a b refs]: in [refs], page [a] is used no later than page [b]
    is, or [b] is not used at all. *)
Fixpoint sooner (a b : Z) (refs : list Z) : Prop :=
  match refs with
  | [] => True
  | r :: refs' => r = a \/ (r ≠ b /\ sooner a b refs')
  end.

(** Of two resident sets that differ in one page, the one that holds the
    page used sooner needs no more faults. *)
Lemma sched_sooner X refs n :
  sched c X refs n ->
  forall Y a b, X = {[b]} ∪ Y -> a ∉ Y -> b ∉ Y -> a ≠ b ->
  sooner a b refs ->
  exists m, (m <= n)%nat /\ sched c ({[a]} ∪ Y) refs m.
Proof.
  induction 1 as [X|X r refs n Hr Hs IH|X r refs n Hr Hroom Hs IH
                 |X r v refs n Hr Hv Hs IH]; intros Y a b -> Ha Hb Hab Hsoon.
  - exists 0%nat. split; [lia|constructor].
  - destruct Hsoon as [->|[Hrb Hsoon]]; [set_solver|].
    destruct (IH Y a b eq_refl Ha Hb Hab Hsoon) as (m & Hm & Hs').
    exists m. split; [exact Hm|]. apply sched_hit; [set_solver|exact Hs'].
  - rewrite size_add in Hroom by exact Hb.
    destruct (decide (r = a)) as [->|Hne].
    + destruct (sched_remove _ _ _ Hs ({[a]} ∪ Y) b) as (m & Hm & Hs');
        [gset_eq|set_solver| |].
      { rewrite size_add by exact Ha. exact Hroom. }
      exists m. split; [lia|]. apply sched_hit; [set_solver|exact Hs'].
    + destruct Hsoon as [->|[Hrb Hsoon]]; [congruence|].
      destruct (IH ({[r]} ∪ Y) a b) as (m & Hm & Hs');
        [gset_eq|set_solver|set_solver|exact Hab|exact Hsoon|].
      exists (S m). split; [lia|]. apply sched_room; [set_solver| |].
      { rewrite size_add by exact Ha. exact Hroom. }
      replace ({[r]} ∪ ({[a]} ∪ Y)) with ({[a]} ∪ ({[r]} ∪ Y)) by gset_eq.
      exact Hs'.
  - destruct (decide (r = a)) as [->|Hne]; destruct (decide (v = b)) as [->|Hvb].
    + exists n. split; [lia|]. apply sched_hit; [set_solver|].
      replace ({[a]} ∪ Y) with ({[a]} ∪ ({[b]} ∪ Y) ∖ {[b]}) by gset_eq.
      exact Hs.
    + assert (HvY : v ∈ Y) by set_solver.
      destruct (sched_swap _ _ _ Hs ({[a]} ∪ Y ∖ {[v]}) v b) as (m & Hm & Hs');
        [gset_eq|set_solver|set_solver|exact Hvb|].
      exists m. split; [lia|]. apply sched_hit; [set_solver|].
      replace ({[a]} ∪ Y) with ({[v]} ∪ ({[a]} ∪ Y ∖ {[v]})) by gset_eq.
      exact Hs'.
    + exists (S n). split; [lia|].
      apply (sched_evict c _ r a); [set_solver|set_solver|].
      replace ({[r]} ∪ ({[a]} ∪ Y) ∖ {[a]})
        with ({[r]} ∪ ({[b]} ∪ Y) ∖ {[b]}) by gset_eq.
      exact Hs.
    + destruct Hsoon as [->|[Hrb Hsoon]]; [congruence|].
      assert (HvY : v ∈ Y) by set_solver.
      destruct (IH ({[r]} ∪ Y ∖ {[v]}) a b) as (m & Hm & Hs');
        [gset_eq|set_solver|set_solver|exact Hab|exact Hsoon|].
      exists (S m). split; [lia|].
      apply (sched_evict c _ r v); [set_solver|set_solver|].
      replace ({[r]} ∪ ({[a]} ∪ Y) ∖ {[v]})
        with ({[a]} ∪ ({[r]} ∪ Y ∖ {[v]})) by gset_eq.
      exact Hs'.
Qed.
End Schedules.

Lemma sooner_absent a b refs : b ∉ refs -> sooner a b refs.
Proof.
  induction refs as [|r refs IH]; intros Hb; simpl; [exact I|].
  apply not_elem_of_cons in Hb as [Hne Hb]. right. split; [congruence|auto].
Qed.

Lemma sooner_index a b refs i j :
  py_index a refs = Ok i -> py_index b refs = Ok j -> i <= j ->
  sooner a b refs.
Proof.
  revert i j. induction refs as [|r refs IH]; intros i j Ha Hb Hij; simpl;
    [exact I|].
  simpl in Ha, Hb. destruct (decide (r = a)) as [->|Hra]; [left; reflexivity|].
  right. destruct (py_index a refs) as [i'|] eqn:Hi'; [|discriminate].
  inversion Ha; subst. pose proof (py_index_first _ _ _ Hi') as (Hi0 & _).
  destruct (decide (r = b)) as [->|Hrb].
  - inversion Hb; subst. lia.
  - destruct (py_index b refs) as [j'|] eqn:Hj'; [|discriminate].
    inversion Hb; subst. split; [exact Hrb|]. eapply IH; eauto. lia.
Qed.

(** The page that OPT evicts is used latest: every other resident page is
    used sooner, or the victim is never used again. *)
Lemma OPT_victim_latest (frames future : list Z) (victim : Z) :
  frames ≠ [] ->
  OPT_scan frames future (-1) (-1) = Ok victim ->
  forall x, x ∈ frames -> x ≠ victim -> sooner x victim future.
Proof.
  intros Hne Hscan x Hx Hxv.
  destruct (OPT_victim_spec frames future Hne) as (v & Hv & _ & HA & HB).
  rewrite Hscan in Hv. inversion Hv; subst v.
  destruct (decide (Forall (fun y => y ∈ future) frames)) as [Hall|Hsome].
  - rewrite Forall_forall in Hall. destruct (HB Hall) as (j & Hj & Hlt).
    destruct (Hlt x Hx Hxv) as (i & Hi & Hij).
    eapply sooner_index; eauto. lia.
  - apply not_Forall_Exists in Hsome; [|intros y; apply _].
    apply Exists_exists in Hsome as (y & Hy & Hnot).
    destruct HA as (l1 & l2 & _ & Hvf & _); [eauto|].
    apply sooner_absent. exact Hvf.
Qed.

(** ** The runs of the three policies as schedules *)

Lemma list_to_set_evict (l1 l2 : list Z) (victim p : Z) :
  NoDup (l1 ++ victim :: l2) ->
  (list_to_set (l1 ++ l2 ++ [p]) : gset Z)
    = {[p]} ∪ (list_to_set (l1 ++ victim :: l2) ∖ {[victim]}).
Proof.
  intros Hnd. apply NoDup_middle in Hnd as [_ Hv].
  apply set_eq. intros x.
  rewrite elem_of_union, elem_of_difference, !elem_of_list_to_set,
    !elem_of_singleton, !elem_of_app, !elem_of_cons, elem_of_nil.
  rewrite elem_of_app in Hv.
  destruct (decide (x = victim)) as [->|Hne]; tauto.
Qed.

(** Every run of the driver's loop that returns is a schedule with as many
    faults as the run has counted. *)
Lemma run_loop_sched c cls future :
  well_called cls future ->
  forall rest i self self',
    frames_ok c self ->
    run_loop cls future i rest self = (Ok tt, self') ->
    exists n, sched c (list_to_set (page_frames self)) rest n /\
              page_fault_count self' = page_fault_count self + Z.of_nat n.
Proof.
  intros Hcall. induction rest as [|p rest IH]; intros i self self' Hok Hrun.
  { inversion Hrun; subst. exists 0%nat. split; [constructor|lia]. }
  rewrite run_loop_step in Hrun by exact Hcall.
  destruct (insert cls p (insert_args cls (slice_from future i)) self)
    as [[[]|e] self1] eqn:Hins; [|discriminate].
  apply insert_step in Hins.
  pose proof (paging_step_frames_ok _ _ _ _ _ Hins Hok) as Hok1.
  destruct (IH _ _ _ Hok1 Hrun) as (n & Hs & Hcount).
  destruct self as [c0 f frames]. destruct Hok as (Hc & _ & _ & Hnd).
  simpl in Hc, Hnd. subst c0. simpl page_frames. simpl page_fault_count.
  apply paging_step_Ok_inv in Hins
    as [[Hp ->]|[(l1 & l2 & -> & Hl1 & ->)
       |[(Hp & Hlen & ->)|(Hp & Hlen & l1 & v & l2 & -> & Hl1 & ->)]]];
    simpl in Hs, Hcount.
  - exists n. split; [|exact Hcount].
    apply sched_hit; [apply elem_of_list_to_set; exact Hp|exact Hs].
  - exists n. split; [|exact Hcount]. rewrite list_to_set_move in Hs.
    apply sched_hit; [|exact Hs].
    apply elem_of_list_to_set. rewrite elem_of_app, elem_of_cons. auto.
  - exists (S n). split; [|lia]. rewrite list_to_set_snoc_L in Hs.
    apply sched_room.
    + rewrite elem_of_list_to_set. exact Hp.
    + rewrite <- len_size by exact Hnd. exact Hlen.
    + replace ({[p]} ∪ list_to_set frames : gset Z)
        with (list_to_set frames ∪ {[p]} : gset Z) by gset_eq.
      exact Hs.
  - exists (S n). split; [|lia].
    rewrite (list_to_set_evict _ _ _ _ Hnd) in Hs.
    apply (sched_evict c _ p v); [| |exact Hs].
    + rewrite elem_of_list_to_set. exact Hp.
    + rewrite elem_of_list_to_set, elem_of_app, elem_of_cons. auto.
Qed.

(** With at least one frame the loop returns, whatever the policy. *)
Lemma run_loop_returns c cls future :
  well_called cls future -> 1 <= c ->
  forall rest i self,
    frames_ok c self ->
    exists self', run_loop cls future i rest self = (Ok tt, self').
Proof.
  intros Hcall Hc. induction rest as [|p rest IH]; intros i self Hok.
  { exists self. reflexivity. }
  rewrite run_loop_step by exact Hcall.
  assert (Hc' : 1 <= page_frame_count self) by (destruct Hok as [-> _]; exact Hc).
  destruct (insert_returns cls p (slice_from future i) self Hc') as (self1 & Hins).
  rewrite Hins. apply IH.
  eapply paging_step_frames_ok; [eapply insert_step; exact Hins|exact Hok].
Qed.

(** ** C6: OPT is optimal *)

Lemma sched_cons_inv c X p refs n :
  sched c X (p :: refs) n ->
  (p ∈ X /\ sched c X refs n) \/
  ((p ∉ X) /\ exists n', n = S n' /\
     ((Z.of_nat (size X) < c /\ sched c ({[p]} ∪ X) refs n') \/
      (exists v, v ∈ X /\ sched c ({[p]} ∪ (X ∖ {[v]})) refs n'))).
Proof.
  intros Hs. inversion Hs; subst.
  - left. auto.
  - right. split; [assumption|]. eexists. split; [reflexivity|]. left. auto.
  - right. split; [assumption|]. eexists. split; [reflexivity|]. right. eauto.
Qed.

Lemma drop_tail (l : list Z) i x rest :
  drop i l = x :: rest -> drop (S i) l = rest.
Proof.
  intros H. change rest with (drop 1 (x :: rest)). rewrite <- H, drop_drop.
  f_equal. lia.
Qed.

(** Run with the true lookahead, OPT needs no more faults than any schedule
    for the same resident set and the same remaining reference string. *)
Lemma OPT_loop_optimal c refs :
  1 <= c -> truthy (Some refs) = true ->
  forall rest i self n,
    drop i refs = rest ->
    frames_ok c self ->
    sched c (list_to_set (page_frames self)) rest n ->
    exists self',
      run_loop OPTReplacementAlgorithm (Some refs) i rest self = (Ok tt, self') /\
      page_fault_count self' <= page_fault_count self + Z.of_nat n.
Proof.
  intros Hc Htruthy. induction rest as [|p rest IH]; intros i self n Hdrop Hok Hs.
  { exists self. split; [reflexivity|lia]. }
  rewrite run_loop_step by exact Htruthy.
  simpl slice_from. rewrite (drop_tail _ _ _ _ Hdrop). simpl insert.
  pose proof (drop_tail _ _ _ _ Hdrop) as Hdrop'.
  destruct self as [c0 f frames]. pose proof Hok as (Hc0 & _ & Hbound & Hnd).
  simpl in Hc0, Hbound, Hnd, Hs. subst c0. simpl page_fault_count.
  destruct (decide (p ∈ frames)) as [Hin|Hin].
  { (* hit *)
    rewrite OPT_insert_hit by exact Hin.
    apply sched_cons_inv in Hs as [[_ Hs']|[Hp _]];
      [|exfalso; apply Hp; apply elem_of_list_to_set; exact Hin].
    destruct (IH (S i) _ _ Hdrop' Hok Hs') as (self' & Hrun & Hle).
    exists self'. split; [exact Hrun|exact Hle]. }
  assert (HpX : p ∉ (list_to_set frames : gset Z))
    by (rewrite elem_of_list_to_set; exact Hin).
  destruct (Z_lt_le_dec (len frames) c) as [Hlt|Hge].
  { (* fault with a free frame *)
    rewrite OPT_insert_room by assumption.
    assert (Hok1 : frames_ok c (Build_RA c (f + 1) (frames ++ [p]))).
    { repeat split; simpl; [lia|rewrite len_app; lia|apply NoDup_snoc; assumption]. }
    assert (Hnext : exists m, (S m <= n)%nat /\
              sched c (list_to_set (frames ++ [p])) rest m).
    { rewrite list_to_set_snoc_L.
      replace (list_to_set frames ∪ {[p]} : gset Z)
        with ({[p]} ∪ list_to_set frames : gset Z) by gset_eq.
      apply sched_cons_inv in Hs
        as [[Hp _]|(_ & n' & -> & [[Hroom Hs']|(v & Hv & Hs')])].
      - contradiction.
      - exists n'. split; [lia|exact Hs'].
      - destruct (sched_add c _ _ _ Hs' v) as (m & Hm & Hs''); [set_solver| |].
        { rewrite size_swap by assumption. rewrite <- len_size by exact Hnd.
          exact Hlt. }
        exists m. split; [lia|].
        replace ({[p]} ∪ list_to_set frames : gset Z)
          with ({[v]} ∪ ({[p]} ∪ list_to_set frames ∖ {[v]}) : gset Z) by gset_eq.
        exact Hs''. }
    destruct Hnext as (m & Hm & Hs').
    destruct (IH (S i) _ _ Hdrop' Hok1 Hs') as (self' & Hrun & Hle).
    exists self'. split; [exact Hrun|]. simpl in Hle. lia. }
  (* fault that evicts *)
  assert (Hne : frames ≠ []).
  { intros ->. unfold len in Hge. simpl in Hge. lia. }
  destruct (OPT_victim_spec frames rest Hne) as (victim & Hscan & Hvin & _).
  destruct (py_remove_split victim frames Hvin) as (l1 & l2 & Hfr & Hl1 & Hrm).
  rewrite (OPT_insert_evict c f frames p rest victim _ Hin Hge Hscan Hrm).
  rewrite <- app_assoc.
  pose proof (OPT_victim_latest frames rest victim Hne Hscan) as Hlatest.
  assert (Hok1 : frames_ok c (Build_RA c (f + 1) (l1 ++ l2 ++ [p]))).
  { eapply paging_step_frames_ok; [|exact Hok]. rewrite Hfr.
    apply step_evict; [rewrite <- Hfr; exact Hin|rewrite <- Hfr; exact Hge|exact Hl1]. }
  assert (Hnext : exists m, (S m <= n)%nat /\
            sched c (list_to_set (l1 ++ l2 ++ [p])) rest m).
  { rewrite Hfr in Hnd. rewrite (list_to_set_evict _ _ _ _ Hnd), <- Hfr.
    rewrite <- Hfr in Hnd.
    apply sched_cons_inv in Hs
      as [[Hp _]|(_ & n' & -> & [[Hroom Hs']|(v & Hv & Hs')])].
    - contradiction.
    - exfalso. rewrite <- len_size in Hroom by exact Hnd. lia.
    - destruct (decide (v = victim)) as [->|Hvv].
      { exists n'. split; [lia|exact Hs']. }
      assert (Hvf : v ∈ frames) by (apply elem_of_list_to_set in Hv; exact Hv).
      destruct (sched_sooner c _ _ _ Hs'
                  ({[p]} ∪ list_to_set frames ∖ {[v]} ∖ {[victim]}) v victim)
        as (m & Hm & Hs''); [gset_eq|set_solver|set_solver|exact Hvv| |].
      { apply Hlatest; assumption. }
      exists m. split; [lia|].
      replace ({[p]} ∪ list_to_set frames ∖ {[victim]} : gset Z)
        with ({[v]} ∪ ({[p]} ∪ list_to_set frames ∖ {[v]} ∖ {[victim]}) : gset Z)
        by gset_eq.
      exact Hs''. }
  destruct Hnext as (m & Hm & Hs').
  destruct (IH (S i) _ _ Hdrop' Hok1 Hs') as (self' & Hrun & Hle).
  exists self'. split; [exact Hrun|]. simpl in Hle. lia.
Qed.

Lemma run_algorithm_loop cls refs c future n :
  run_algorithm cls refs c future = Ok n ->
  0 <= c /\
  exists self', run_loop cls future 0 refs (Build_RA c 0 []) = (Ok tt, self') /\
                page_fault_count self' = n.
Proof.
  unfold run_algorithm, init. destruct (c <? 0) eqn:Hneg; [discriminate|].
  apply Z.ltb_ge in Hneg.
  destruct (run_loop cls future 0 refs _) as [[[]|e] self'] eqn:Hrun;
    [|discriminate].
  intros Heq. inversion Heq. split; [exact Hneg|]. exists self'. auto.
Qed.

Lemma run_loop_no_frame cls future page rest i f :
  well_called cls future ->
  run_loop cls future i (page :: rest) (Build_RA 0 f [])
    = (Raise (eviction_error cls), Build_RA 0 (f + 1) []).
Proof.
  intros Hcall. rewrite run_loop_step by exact Hcall.
  rewrite insert_no_frame by lia. reflexivity.
Qed.

Lemma fresh_frames_ok c : 0 <= c -> frames_ok c (Build_RA c 0 []).
Proof. intros Hc. apply init_frames_ok. unfold init.
  destruct (c <? 0) eqn:Hneg; [apply Z.ltb_lt in Hneg; lia|reflexivity].
Qed.

(** Whatever the policy, a run that returns a fault count returns at least
    the fault count of OPT run with the whole reference string as lookahead. *)
Lemma OPT_least_faults cls refs c n n_opt :
  run_algorithm cls refs c (full_lookahead cls refs) = Ok n ->
  run_algorithm OPTReplacementAlgorithm refs c (Some refs) = Ok n_opt ->
  n_opt <= n.
Proof.
  intros Hcls Hopt.
  apply run_algorithm_loop in Hcls as (Hc & self1 & Hrun1 & <-).
  apply run_algorithm_loop in Hopt as (_ & self2 & Hrun2 & <-).
  destruct refs as [|p refs].
  { inversion Hrun1. inversion Hrun2. simpl. lia. }
  destruct (decide (c = 0)) as [->|Hc0].
  { rewrite run_loop_no_frame in Hrun2 by reflexivity. discriminate. }
  assert (Hc1 : 1 <= c) by lia.
  destruct (run_loop_sched c cls _ (full_lookahead_well_called cls p refs)
              _ _ _ _ (fresh_frames_ok c Hc) Hrun1) as (m & Hs & Hcount).
  destruct (OPT_loop_optimal c (p :: refs) Hc1 eq_refl (p :: refs) 0%nat
              (Build_RA c 0 []) m eq_refl (fresh_frames_ok c Hc) Hs)
    as (self2' & Hrun2' & Hle).
  rewrite Hrun2 in Hrun2'. inversion Hrun2'; subst self2'.
  simpl in Hcount, Hle. lia.
Qed.

Lemma run_algorithm_returns cls refs c :
  1 <= c \/ (0 <= c /\ refs = []) ->
  exists n, run_algorithm cls refs c (full_lookahead cls refs) = Ok n.
Proof.
  intros Hc. unfold run_algorithm, init.
  destruct (c <? 0) eqn:Hneg; [apply Z.ltb_lt in Hneg; lia|].
  destruct refs as [|p refs]; [eexists; reflexivity|].
  destruct Hc as [Hc|[_ Hnil]]; [|discriminate].
  destruct (run_loop_returns c cls _ (full_lookahead_well_called cls p refs) Hc
              (p :: refs) 0%nat (Build_RA c 0 [])) as (self' & ->).
  { apply fresh_frames_ok. lia. }
  eexists. reflexivity.
Qed.

(** C6. For every reference string and every capacity [c >= 0]: whenever
    FIFO (respectively LRU) and OPT, the latter run with the whole reference
    string as lookahead, produce fault counts, the count of OPT is the
    smaller or equal one; and the three runs do produce fault counts as soon
    as there is at least one frame or the reference string is empty. *)
Theorem OPT_optimality (refs : list Z) (c : Z) :
  0 <= c ->
  (forall n_fifo n_opt,
     run_algorithm FIFOReplacementAlgorithm refs c None = Ok n_fifo ->
     run_algorithm OPTReplacementAlgorithm refs c (Some refs) = Ok n_opt ->
     n_opt <= n_fifo) /\
  (forall n_lru n_opt,
     run_algorithm LRUReplacementAlgorithm refs c None = Ok n_lru ->
     run_algorithm OPTReplacementAlgorithm refs c (Some refs) = Ok n_opt ->
     n_opt <= n_lru) /\
  (1 <= c \/ refs = [] ->
   exists n_fifo n_lru n_opt,
     run_algorithm FIFOReplacementAlgorithm refs c None = Ok n_fifo /\
     run_algorithm LRUReplacementAlgorithm refs c None = Ok n_lru /\
     run_algorithm OPTReplacementAlgorithm refs c (Some refs) = Ok n_opt /\
     n_opt <= n_fifo /\ n_opt <= n_lru).
Proof.
  intros Hc.
  assert (HF : forall n_fifo n_opt,
     run_algorithm FIFOReplacementAlgorithm refs c None = Ok n_fifo ->
     run_algorithm OPTReplacementAlgorithm refs c (Some refs) = Ok n_opt ->
     n_opt <= n_fifo).
  { intros n_fifo n_opt. apply (OPT_least_faults FIFOReplacementAlgorithm). }
  assert (HL : forall n_lru n_opt,
     run_algorithm LRUReplacementAlgorithm refs c None = Ok n_lru ->
     run_algorithm OPTReplacementAlgorithm refs c (Some refs) = Ok n_opt ->
     n_opt <= n_lru).
  { intros n_lru n_opt. apply (OPT_least_faults LRUReplacementAlgorithm). }
  split; [exact HF|]. split; [exact HL|].
  intros Hdef.
  assert (Hdef' : 1 <= c \/ (0 <= c /\ refs = [])) by tauto.
  destruct (run_algorithm_returns FIFOReplacementAlgorithm refs c Hdef') as (nf & Hf).
  destruct (run_algorithm_returns LRUReplacementAlgorithm refs c Hdef') as (nl & Hl).
  destruct (run_algorithm_returns OPTReplacementAlgorithm refs c Hdef') as (no & Ho).
  simpl in Hf, Hl, Ho. exists nf, nl, no. eauto 10.
Qed.

Lemma OPT_optimality_witness :
  run_algorithm FIFOReplacementAlgorithm ref1 3 None = Ok 15 /\
  run_algorithm LRUReplacementAlgorithm ref1 3 None = Ok 12 /\
  run_algorithm OPTReplacementAlgorithm ref1 3 (Some ref1) = Ok 9 /\
  9 <= 15 /\ 9 <= 12.
Proof.
  destruct (OPT_optimality ref1 3) as (HF & HL & _); [lia|].
  assert (Hf : run_algorithm FIFOReplacementAlgorithm ref1 3 None = Ok 15)
    by (vm_compute; reflexivity).
  assert (Hl : run_algorithm LRUReplacementAlgorithm ref1 3 None = Ok 12)
    by (vm_compute; reflexivity).
  assert (Ho : run_algorithm OPTReplacementAlgorithm ref1 3 (Some ref1) = Ok 9)
    by (vm_compute; reflexivity).
  split; [exact Hf|]. split; [exact Hl|]. split; [exact Ho|].
  split; [exact (HF 15 9 Hf Ho)|exact (HL 12 9 Hl Ho)].
Defined.

(** * Further properties of the policies and of the driver *)

(** ** The fault counter *)

(** X1. A call of [insert] with the arguments its class expects never
    changes the capacity, leaves the fault counter as it is when the page is
    resident and increases it by exactly one when the page is not resident,
    whether the call returns or raises. *)
Theorem insert_counts_faults (cls : algorithm_class) (page : Z)
    (future : list Z) (self self' : ReplacementAlgorithm) (r : result unit) :
  insert cls page (insert_args cls future) self = (r, self') ->
  page_frame_count self' = page_frame_count self /\
  (page ∈ page_frames self -> page_fault_count self' = page_fault_count self) /\
  (page ∉ page_frames self ->
   page_fault_count self' = page_fault_count self + 1).
Proof.
  destruct self as [c f frames]. simpl. intros Hrun.
  destruct (decide (page ∈ frames)) as [Hin|Hin].
  { assert (Hgoal : page_frame_count self' = c /\ page_fault_count self' = f).
    { destruct cls; simpl in Hrun.
      - rewrite FIFO_insert_hit in Hrun by exact Hin. inversion Hrun. auto.
      - destruct (py_remove_split page frames Hin) as (l1 & l2 & _ & _ & Hrm).
        rewrite (LRU_insert_hit c f frames page _ Hrm) in Hrun.
        inversion Hrun. auto.
      - rewrite OPT_insert_hit in Hrun by exact Hin. inversion Hrun. auto. }
    destruct Hgoal as [Hc Hf]. split; [exact Hc|]. split; [auto|].
    intros Hnot. contradiction. }
  assert (Hgoal : page_frame_count self' = c /\ page_fault_count self' = f + 1).
  { destruct (Z_lt_le_dec (len frames) c) as [Hlt|Hge].
    { destruct cls; simpl in Hrun.
      - rewrite FIFO_insert_room in Hrun by assumption. inversion Hrun. auto.
      - rewrite LRU_insert_room in Hrun by assumption. inversion Hrun. auto.
      - rewrite OPT_insert_room in Hrun by assumption. inversion Hrun. auto. }
    destruct frames as [|v rest].
    { rewrite insert_no_frame in Hrun by (unfold len in Hge; simpl in Hge; lia).
      inversion Hrun. auto. }
    destruct cls; simpl in Hrun.
    - rewrite (FIFO_insert_evict c f _ page v rest Hin Hge eq_refl) in Hrun.
      inversion Hrun. auto.
    - rewrite (LRU_insert_evict c f _ page v rest Hin Hge eq_refl) in Hrun.
      inversion Hrun. auto.
    - destruct (OPT_insert_evict_Ok c f (v :: rest) page future Hin Hge)
        as (l1 & w & l2 & _ & _ & Heq); [discriminate|].
      rewrite Heq in Hrun. inversion Hrun. auto. }
  destruct Hgoal as [Hc Hf]. split; [exact Hc|]. split; [|auto].
  intros Hyes. contradiction.
Qed.

Lemma insert_counts_faults_witness :
  page_frame_count (Build_RA 0 1 []) = page_frame_count (Build_RA 0 0 []) /\
  (7 ∈ page_frames (Build_RA 0 0 []) ->
   page_fault_count (Build_RA 0 1 []) = page_fault_count (Build_RA 0 0 [])) /\
  (7 ∉ page_frames (Build_RA 0 0 []) ->
   page_fault_count (Build_RA 0 1 []) = page_fault_count (Build_RA 0 0 []) + 1).
Proof.
  apply (insert_counts_faults LRUReplacementAlgorithm 7 [] (Build_RA 0 0 [])
           (Build_RA 0 1 []) (Raise (IndexError "pop from empty list"))).
  vm_compute. reflexivity.
Defined.

(** ** Bounds on the fault count of a run *)

(** A schedule faults at least once for every page that is referenced and
    not resident at the start, and at most once per reference. *)
Lemma sched_bounds c X refs n :
  sched c X refs n ->
  (size (list_to_set refs ∖ X : gset Z) <= n)%nat /\ (n <= length refs)%nat.
Proof.
  induction 1 as [X|X p refs n Hp _ [IHl IHu]|X p refs n Hp Hroom _ [IHl IHu]
                 |X p v refs n Hp Hv _ [IHl IHu]].
  - split; [|simpl; lia].
    replace (list_to_set [] ∖ X : gset Z) with (∅ : gset Z) by set_solver.
    rewrite size_empty. lia.
  - split; [|simpl; lia]. rewrite list_to_set_cons.
    replace (({[p]} ∪ list_to_set refs) ∖ X) with (list_to_set refs ∖ X : gset Z);
      [exact IHl|].
    apply set_eq. intros x.
    rewrite !elem_of_difference, elem_of_union, elem_of_singleton.
    destruct (decide (x = p)) as [->|Hne]; tauto.
  - split; [|simpl; lia]. rewrite list_to_set_cons.
    rewrite (size_new_page p X _ Hp). lia.
  - split; [|simpl; lia]. rewrite list_to_set_cons.
    rewrite (size_new_page p X _ Hp).
    assert (size (list_to_set refs ∖ ({[p]} ∪ X) : gset Z)
            <= size (list_to_set refs ∖ ({[p]} ∪ X ∖ {[v]}) : gset Z))%nat.
    { apply subseteq_size. intros x.
      rewrite !elem_of_difference, !elem_of_union, elem_of_difference,
        !elem_of_singleton. tauto. }
    lia.
Qed.

(** X2. Whenever a run of the driver returns a fault count, the count is at
    least the number of distinct pages of the reference string (the first
    access to a page always faults) and at most the length of the string. *)
Theorem fault_count_bounds (cls : algorithm_class) (refs : list Z) (c n : Z) :
  run_algorithm cls refs c (full_lookahead cls refs) = Ok n ->
  distinct_pages refs <= n <= len refs.
Proof.
  intros Hrun. apply run_algorithm_loop in Hrun as (Hc & self' & Hloop & <-).
  destruct refs as [|p refs].
  { inversion Hloop. simpl. unfold distinct_pages, len. simpl. lia. }
  destruct (run_loop_sched c cls _ (full_lookahead_well_called cls p refs)
              _ _ _ _ (fresh_frames_ok c Hc) Hloop) as (m & Hs & Hcount).
  apply sched_bounds in Hs as [Hl Hu]. simpl in Hcount, Hl.
  rewrite <- size_distinct. unfold len.
  replace (list_to_set (p :: refs) : gset Z)
    with (list_to_set (p :: refs) ∖ list_to_set [] : gset Z) by set_solver.
  simpl in Hu |- *. lia.
Qed.

Lemma fault_count_bounds_witness : distinct_pages ref1 <= 12 <= len ref1.
Proof.
  apply (fault_count_bounds LRUReplacementAlgorithm ref1 3 12).
  vm_compute. reflexivity.
Defined.

(** ** The frame set fills up and then stays full *)

Lemma size_le_eq (X Y : gset Z) : X ⊆ Y -> (size Y <= size X)%nat -> X = Y.
Proof.
  intros Hsub Hsize. apply set_eq. intros x. split; [apply Hsub|].
  intros Hx. destruct (decide (x ∈ X)) as [|Hnot]; [assumption|].
  assert (size ({[x]} ∪ X) <= size Y)%nat as Hle.
  { apply subseteq_size. intros y Hy. apply elem_of_union in Hy as [Hy|Hy].
    - apply elem_of_singleton in Hy. subst. exact Hx.
    - apply Hsub. exact Hy. }
  rewrite size_add in Hle by exact Hnot. lia.
Qed.

(** Invariant of the loop: the resident pages are among the pages seen so
    far, and there are as many of them as the capacity allows. *)
Lemma fill_loop c cls future :
  well_called cls future ->
  forall rest i self self' (seen : gset Z),
    frames_ok c self ->
    list_to_set (page_frames self) ⊆ seen ->
    len (page_frames self) = Z.min c (Z.of_nat (size seen)) ->
    run_loop cls future i rest self = (Ok tt, self') ->
    list_to_set (page_frames self') ⊆ seen ∪ list_to_set rest /\
    len (page_frames self')
      = Z.min c (Z.of_nat (size (seen ∪ list_to_set rest))).
Proof.
  intros Hcall. induction rest as [|p rest IH];
    intros i self self' seen Hok Hsub Hlen Hrun.
  { inversion Hrun; subst. simpl.
    replace (seen ∪ ∅) with seen by set_solver. auto. }
  rewrite run_loop_step in Hrun by exact Hcall.
  destruct (insert cls p (insert_args cls (slice_from future i)) self)
    as [[[]|e] self1] eqn:Hins; [|discriminate].
  apply insert_step in Hins.
  pose proof (paging_step_frames_ok _ _ _ _ _ Hins Hok) as Hok1.
  rewrite list_to_set_cons.
  replace (seen ∪ ({[p]} ∪ list_to_set rest))
    with (({[p]} ∪ seen) ∪ list_to_set rest) by set_solver.
  apply (IH (S i) self1 self' ({[p]} ∪ seen) Hok1); [| |exact Hrun];
    destruct self as [c0 f frames]; destruct Hok as (Hc & Hc0 & Hbound & Hnd);
    simpl in Hc, Hbound, Hnd, Hsub, Hlen; subst c0;
    apply paging_step_Ok_inv in Hins
      as [[Hp ->]|[(l1 & l2 & -> & Hl1 & ->)
         |[(Hp & Hroom & ->)|(Hp & Hfull & l1 & v & l2 & -> & Hl1 & ->)]]];
    simpl.
  - set_solver.
  - rewrite list_to_set_move. set_solver.
  - rewrite list_to_set_snoc_L. set_solver.
  - rewrite (list_to_set_evict _ _ _ _ Hnd). set_solver.
  - assert (p ∈ seen) by (apply Hsub, elem_of_list_to_set; exact Hp).
    replace ({[p]} ∪ seen) with seen by set_solver. exact Hlen.
  - assert (p ∈ seen).
    { apply Hsub, elem_of_list_to_set. rewrite elem_of_app, elem_of_cons. auto. }
    replace ({[p]} ∪ seen) with seen by set_solver.
    rewrite app_assoc, len_app. rewrite len_middle in Hlen. exact Hlen.
  - assert (Heq : list_to_set frames = seen).
    { apply size_le_eq; [exact Hsub|]. rewrite (len_size _ Hnd) in Hlen, Hroom. lia. }
    assert (Hps : p ∉ seen) by (rewrite <- Heq, elem_of_list_to_set; exact Hp).
    rewrite len_app, size_add by exact Hps. lia.
  - assert (Hle : (size seen <= size ({[p]} ∪ seen))%nat)
      by (apply subseteq_size; set_solver).
    rewrite app_assoc, len_app. rewrite len_middle in Hlen, Hfull, Hbound. lia.
Qed.

(** X3. After the driver's loop has served a reference string on a fresh
    instance with [c] frames, the instance holds exactly [min c d] pages,
    where [d] is the number of distinct pages of the string, and every
    resident page occurs in the string. *)
Theorem frames_fill_up (cls : algorithm_class) (refs : list Z) (c : Z)
    (self' : ReplacementAlgorithm) :
  0 <= c ->
  run_loop cls (full_lookahead cls refs) 0 refs (Build_RA c 0 []) = (Ok tt, self') ->
  len (page_frames self') = Z.min c (distinct_pages refs) /\
  forall x, x ∈ page_frames self' -> x ∈ refs.
Proof.
  intros Hc Hrun. destruct refs as [|p refs].
  { inversion Hrun; subst. simpl. split.
    - unfold distinct_pages, len. simpl. lia.
    - intros x Hx. exact Hx. }
  destruct (fill_loop c cls _ (full_lookahead_well_called cls p refs)
              (p :: refs) 0%nat (Build_RA c 0 []) self' ∅
              (fresh_frames_ok c Hc)) as [Hsub Hlen]; [set_solver| |exact Hrun|].
  { rewrite size_empty. unfold len. simpl. lia. }
  replace (∅ ∪ list_to_set (p :: refs) : gset Z)
    with (list_to_set (p :: refs) : gset Z) in Hsub, Hlen by set_solver.
  split.
  - rewrite Hlen. rewrite <- size_distinct. reflexivity.
  - intros x Hx. apply (elem_of_list_to_set (C := gset Z)). apply Hsub.
    apply elem_of_list_to_set. exact Hx.
Qed.

Lemma frames_fill_up_witness :
  len (page_frames (Build_RA 3 9 [0; 1; 7])) = Z.min 3 (distinct_pages ref1) /\
  forall x, x ∈ page_frames (Build_RA 3 9 [0; 1; 7]) -> x ∈ ref1.
Proof.
  apply (frames_fill_up OPTReplacementAlgorithm ref1 3 (Build_RA 3 9 [0; 1; 7])).
  - lia.
  - vm_compute. reflexivity.
Defined.

(** ** The driver called with the wrong arguments, or with no frame *)

Lemma run_algorithm_first cls page refs c future :
  0 <= c ->
  run_algorithm cls (page :: refs) c future =
    match (if truthy future
           then insert cls page (Some (slice_from future 0))
           else insert cls page None) (Build_RA c 0 []) with
    | (Ok _, self') =>
        match run_loop cls future 1 refs self' with
        | (Ok _, self'') => Ok (get_page_fault_count self'')
        | (Raise e, _) => Raise e
        end
    | (Raise e, _) => Raise e
    end.
Proof.
  intros Hc. unfold run_algorithm, init.
  destruct (c <? 0) eqn:Hneg; [apply Z.ltb_lt in Hneg; lia|].
  rewrite run_loop_cons.
  destruct ((if truthy future
             then insert cls page (Some (slice_from future 0))
             else insert cls page None) (Build_RA c 0 [])) as [[[]|e] self'];
    reflexivity.
Qed.

(** X4. The driver does not adapt the call to the class of the instance.
    On a non-empty reference string and with a valid capacity, FIFO and LRU
    raise a [TypeError] at the first access when [future_references] is a
    non-empty list, and OPT raises a [TypeError] at the first access when
    [future_references] is omitted or empty. *)
Theorem driver_argument_mismatch (page : Z) (refs : list Z) (c : Z)
    (future : option (list Z)) :
  0 <= c ->
  (truthy future = true ->
   exists msg,
     run_algorithm FIFOReplacementAlgorithm (page :: refs) c future
       = Raise (TypeError msg) /\
     run_algorithm LRUReplacementAlgorithm (page :: refs) c future
       = Raise (TypeError msg)) /\
  (truthy future = false ->
   exists msg,
     run_algorithm OPTReplacementAlgorithm (page :: refs) c future
       = Raise (TypeError msg)).
Proof.
  intros Hc. split; intros Htruthy.
  - eexists. rewrite !run_algorithm_first by exact Hc. rewrite Htruthy.
    split; reflexivity.
  - eexists. rewrite run_algorithm_first by exact Hc. rewrite Htruthy.
    reflexivity.
Qed.

Lemma driver_argument_mismatch_witness :
  (truthy (Some [7; 0]) = true ->
   exists msg,
     run_algorithm FIFOReplacementAlgorithm [7; 0] 3 (Some [7; 0])
       = Raise (TypeError msg) /\
     run_algorithm LRUReplacementAlgorithm [7; 0] 3 (Some [7; 0])
       = Raise (TypeError msg)) /\
  (truthy (Some [7; 0]) = false ->
   exists msg,
     run_algorithm OPTReplacementAlgorithm [7; 0] 3 (Some [7; 0])
       = Raise (TypeError msg)).
Proof.
  apply (driver_argument_mismatch 7 [0] 3 (Some [7; 0])). lia.
Defined.

(** X5. With zero frames the driver returns a fault count only for the
    empty reference string, and that count is 0, whatever the class and
    whatever is passed as [future_references]. *)
Theorem capacity_zero_only_empty (cls : algorithm_class) (refs : list Z)
    (future : option (list Z)) (n : Z) :
  run_algorithm cls refs 0 future = Ok n <-> refs = [] /\ n = 0.
Proof.
  split.
  - destruct refs as [|p refs]; intros Hrun.
    { inversion Hrun. auto. }
    exfalso. rewrite run_algorithm_first in Hrun by lia.
    destruct (truthy future), cls; simpl insert in Hrun; discriminate.
  - intros [-> ->]. reflexivity.
Qed.

(** ** LRU holds the most recently used pages *)

(** [remove_dups] keeps the last occurrence of every page: the pages of a
    reference string in the order of their last use, the least recently
    used first. *)
Lemma filter_ne_id (p : Z) (l : list Z) :
  p ∉ l -> filter (fun x => x ≠ p) l = l.
Proof.
  induction l as [|x l IH]; intros Hp; [reflexivity|].
  apply not_elem_of_cons in Hp as [Hne Hp].
  rewrite filter_cons_True by congruence. rewrite IH by exact Hp. reflexivity.
Qed.

Lemma filter_ne_middle (p : Z) (l1 l2 : list Z) :
  p ∉ l1 ++ l2 -> filter (fun x => x ≠ p) (l1 ++ p :: l2) = l1 ++ l2.
Proof.
  intros Hp. rewrite filter_app, filter_cons_False by tauto.
  rewrite <- filter_app. apply filter_ne_id. exact Hp.
Qed.

Lemma remove_dups_snoc (l : list Z) (p : Z) :
  remove_dups (l ++ [p]) = filter (fun x => x ≠ p) (remove_dups l) ++ [p].
Proof.
  induction l as [|x l IH]; simpl.
  { destruct (decide_rel elem_of p []) as [H|H]; [inversion H|reflexivity]. }
  destruct (decide (x = p)) as [->|Hne].
  - destruct (decide_rel elem_of p (l ++ [p])) as [_|Hnot].
    + rewrite IH. destruct (decide_rel elem_of p l) as [_|_]; [reflexivity|].
      rewrite filter_cons_False by tauto. reflexivity.
    + exfalso. apply Hnot. rewrite elem_of_app, list_elem_of_singleton. auto.
  - destruct (decide_rel elem_of x (l ++ [p])) as [Hin|Hnot];
      destruct (decide_rel elem_of x l) as [Hin'|Hnot'].
    + exact IH.
    + exfalso. apply elem_of_app in Hin as [Hin|Hin]; [auto|].
      apply list_elem_of_singleton in Hin. congruence.
    + exfalso. apply Hnot. rewrite elem_of_app. auto.
    + rewrite IH, filter_cons_True by exact Hne. reflexivity.
Qed.

(** The frame list of LRU is the tail of the recency order: either all of
    it, or its last [c] pages. *)
Definition LRU_recent (c : Z) (prefix : list Z) (self : ReplacementAlgorithm) : Prop :=
  frames_ok c self /\
  exists older, remove_dups prefix = older ++ page_frames self /\
                (older = [] \/ len (page_frames self) = c).

Lemma LRU_step_recent c prefix p self self1 :
  LRU_recent c prefix self ->
  LRU_insert p self = (Ok tt, self1) ->
  LRU_recent c (prefix ++ [p]) self1 /\
  ((p ∈ page_frames self /\ page_fault_count self1 = page_fault_count self) \/
   ((p ∉ page_frames self) /\
    page_fault_count self1 = page_fault_count self + 1)).
Proof.
  intros [Hok (older & Hrec & Hfull)] Hins.
  assert (Hok1 : frames_ok c self1).
  { eapply paging_step_frames_ok; [eapply LRU_insert_step; exact Hins|exact Hok]. }
  assert (Hnd : NoDup (older ++ page_frames self))
    by (rewrite <- Hrec; apply NoDup_remove_dups).
  destruct self as [c0 f frames]. destruct Hok as (Hc & _ & Hbound & _).
  simpl in Hc, Hbound, Hrec, Hfull, Hnd. subst c0.
  unfold LRU_recent. rewrite remove_dups_snoc, Hrec, filter_app.
  apply NoDup_app in Hnd as (Hnd_older & Hdisj & Hnd_frames).
  apply LRU_insert_Ok_inv in Hins
    as [(l1 & l2 & -> & Hl1 & ->)|[(Hp & Hroom & ->)|(Hp & Hge & v & rest & -> & ->)]];
    simpl.
  - (* hit: the page moves to the tail *)
    assert (Hp12 : p ∉ l1 ++ l2) by (apply NoDup_middle in Hnd_frames; tauto).
    assert (Hpo : p ∉ older).
    { intros Hin. apply (Hdisj p Hin). rewrite elem_of_app, elem_of_cons. auto. }
    split; [|left; split; [rewrite elem_of_app, elem_of_cons; auto|reflexivity]].
    split; [exact Hok1|]. exists older. split.
    + rewrite (filter_ne_id p older Hpo), (filter_ne_middle p l1 l2 Hp12).
      rewrite <- !app_assoc. reflexivity.
    + destruct Hfull as [->|Hlen]; [auto|]. right.
      rewrite app_assoc, len_app. rewrite len_middle in Hlen. exact Hlen.
  - (* fault with a free frame: nothing older was ever dropped *)
    split; [|right; auto]. split; [exact Hok1|].
    destruct Hfull as [->|Hlen]; [|lia].
    exists []. split; [|auto]. simpl. rewrite (filter_ne_id p frames Hp).
    reflexivity.
  - (* fault at capacity: the least recently used page joins the older ones *)
    split; [|right; auto]. split; [exact Hok1|].
    exists (filter (fun x => x ≠ p) older ++ [v]). split.
    + rewrite (filter_ne_id p (v :: rest) Hp). rewrite <- !app_assoc. reflexivity.
    + right. rewrite len_app. unfold len in *. simpl in *. lia.
Qed.

Lemma LRU_loop_recent c rest :
  forall prefix i self self',
    LRU_recent c prefix self ->
    run_loop LRUReplacementAlgorithm None i rest self = (Ok tt, self') ->
    LRU_recent c (prefix ++ rest) self'.
Proof.
  induction rest as [|p rest IH]; intros prefix i self self' Hinv Hrun.
  { inversion Hrun; subst. rewrite app_nil_r. exact Hinv. }
  rewrite run_loop_cons in Hrun. simpl in Hrun.
  destruct (LRU_insert p self) as [[[]|e] self1] eqn:Hins; [|discriminate].
  destruct (LRU_step_recent c prefix p self self1 Hinv Hins) as [Hinv1 _].
  replace (prefix ++ p :: rest) with ((prefix ++ [p]) ++ rest)
    by (rewrite <- app_assoc; reflexivity).
  exact (IH _ _ _ _ Hinv1 Hrun).
Qed.

Lemma LRU_recent_fresh c : 0 <= c -> LRU_recent c [] (Build_RA c 0 []).
Proof.
  intros Hc. split; [apply fresh_frames_ok; exact Hc|]. exists []. auto.
Qed.

(** X6. After the loop of the driver has served a reference string on a
    fresh LRU instance with [c] frames, the frame list is exactly the last
    [c] entries (all of them if there are fewer) of the pages of the string
    ordered by their last use: LRU holds the [c] most recently used pages,
    the least recently used one first. *)
Theorem LRU_holds_most_recent (refs : list Z) (c : Z)
    (self' : ReplacementAlgorithm) :
  0 <= c ->
  run_loop LRUReplacementAlgorithm None 0 refs (Build_RA c 0 []) = (Ok tt, self') ->
  page_frames self'
    = drop (length (remove_dups refs) - Z.to_nat c) (remove_dups refs).
Proof.
  intros Hc Hrun.
  destruct (LRU_loop_recent c refs [] 0%nat _ _ (LRU_recent_fresh c Hc) Hrun)
    as [(_ & _ & Hbound & _) (older & Hrec & Hfull)].
  simpl in Hrec. rewrite Hrec. unfold len in *.
  destruct Hfull as [->|Hlen].
  - simpl. replace (length (page_frames self') - Z.to_nat c)%nat with 0%nat by lia.
    reflexivity.
  - rewrite length_app.
    replace (length older + length (page_frames self') - Z.to_nat c)%nat
      with (length older) by lia.
    rewrite drop_app_length. reflexivity.
Qed.

Lemma LRU_holds_most_recent_witness :
  page_frames (Build_RA 3 12 [7; 0; 1])
    = drop (length (remove_dups ref1) - Z.to_nat 3) (remove_dups ref1).
Proof.
  apply (LRU_holds_most_recent ref1 3 (Build_RA 3 12 [7; 0; 1])).
  - lia.
  - vm_compute. reflexivity.
Defined.

(** ** LRU and OPT never fault more with more frames; FIFO can *)

(** With the same past, the pages held with fewer frames are among the
    pages held with more frames. *)
Lemma LRU_recent_included c c' prefix self self' :
  c <= c' ->
  LRU_recent c prefix self -> LRU_recent c' prefix self' ->
  forall x, x ∈ page_frames self -> x ∈ page_frames self'.
Proof.
  intros Hcc [(_ & _ & Hb1 & _) (A1 & Hr1 & Hf1)] [(_ & _ & Hb2 & _) (A2 & Hr2 & Hf2)]
    x Hx.
  destruct Hf2 as [->|Hlen2].
  { simpl in Hr2. rewrite <- Hr2, Hr1, elem_of_app. auto. }
  assert (Hlen : (length A2 <= length A1)%nat).
  { assert (Heq : length (A1 ++ page_frames self) = length (A2 ++ page_frames self'))
      by (rewrite <- Hr1, <- Hr2; reflexivity).
    rewrite !length_app in Heq. unfold len in *. lia. }
  assert (Hdrop : page_frames self
                  = drop (length A1 - length A2) (page_frames self')).
  { rewrite <- (drop_app_length A1 (page_frames self)), <- Hr1, Hr2.
    apply drop_app_ge. exact Hlen. }
  rewrite Hdrop in Hx. eapply subseteq_drop. exact Hx.
Qed.

Lemma LRU_loops_compare c c' rest :
  c <= c' ->
  forall prefix i j s1 s2 s1' s2',
    LRU_recent c prefix s1 -> LRU_recent c' prefix s2 ->
    run_loop LRUReplacementAlgorithm None i rest s1 = (Ok tt, s1') ->
    run_loop LRUReplacementAlgorithm None j rest s2 = (Ok tt, s2') ->
    page_fault_count s2' - page_fault_count s2
      <= page_fault_count s1' - page_fault_count s1.
Proof.
  intros Hcc. induction rest as [|p rest IH];
    intros prefix i j s1 s2 s1' s2' Hinv1 Hinv2 Hrun1 Hrun2.
  { inversion Hrun1; inversion Hrun2; subst. lia. }
  rewrite run_loop_cons in Hrun1, Hrun2. simpl in Hrun1, Hrun2.
  destruct (LRU_insert p s1) as [[[]|e1] t1] eqn:Hins1; [|discriminate].
  destruct (LRU_insert p s2) as [[[]|e2] t2] eqn:Hins2; [|discriminate].
  destruct (LRU_step_recent c prefix p s1 t1 Hinv1 Hins1) as [Ht1 Hcount1].
  destruct (LRU_step_recent c' prefix p s2 t2 Hinv2 Hins2) as [Ht2 Hcount2].
  pose proof (IH _ _ _ _ _ _ _ Ht1 Ht2 Hrun1 Hrun2) as Hrest.
  pose proof (LRU_recent_included c c' prefix s1 s2 Hcc Hinv1 Hinv2 p) as Hincl.
  destruct Hcount1 as [[Hp1 Hf1]|[Hp1 Hf1]], Hcount2 as [[Hp2 Hf2]|[Hp2 Hf2]];
    try lia.
  exfalso. apply Hp2, Hincl, Hp1.
Qed.

(** X7. LRU has no Belady anomaly: on the same reference string, a run with
    more frames returns a fault count that is at most the count of the run
    with fewer frames. *)
Theorem LRU_more_frames (refs : list Z) (c c' n n' : Z) :
  c <= c' ->
  run_algorithm LRUReplacementAlgorithm refs c None = Ok n ->
  run_algorithm LRUReplacementAlgorithm refs c' None = Ok n' ->
  n' <= n.
Proof.
  intros Hcc Hrun Hrun'.
  apply run_algorithm_loop in Hrun as (Hc & s1 & Hloop & <-).
  apply run_algorithm_loop in Hrun' as (Hc' & s2 & Hloop' & <-).
  pose proof (LRU_loops_compare c c' refs Hcc [] _ _ _ _ _ _
                (LRU_recent_fresh c Hc) (LRU_recent_fresh c' Hc') Hloop Hloop')
    as Hle.
  simpl in Hle. lia.
Qed.

Lemma LRU_more_frames_witness : 8 <= 12.
Proof.
  apply (LRU_more_frames ref1 3 4 12 8); [lia| |]; vm_compute; reflexivity.
Defined.

Lemma sched_more_frames c c' X refs n :
  c <= c' -> sched c X refs n -> sched c' X refs n.
Proof.
  intros Hcc. induction 1 as [X|X p refs n Hp _ IH|X p refs n Hp Hroom _ IH
                             |X p v refs n Hp Hv _ IH].
  - constructor.
  - apply sched_hit; assumption.
  - apply sched_room; [assumption|lia|assumption].
  - apply (sched_evict c' X p v); assumption.
Qed.

(** X8. OPT, run with the whole reference string as lookahead, never
    faults more with more frames. *)
Theorem OPT_more_frames (refs : list Z) (c c' n n' : Z) :
  c <= c' ->
  run_algorithm OPTReplacementAlgorithm refs c (Some refs) = Ok n ->
  run_algorithm OPTReplacementAlgorithm refs c' (Some refs) = Ok n' ->
  n' <= n.
Proof.
  intros Hcc Hrun Hrun'.
  apply run_algorithm_loop in Hrun as (Hc & s1 & Hloop & <-).
  apply run_algorithm_loop in Hrun' as (Hc' & s2 & Hloop' & <-).
  destruct refs as [|p refs].
  { inversion Hloop. inversion Hloop'. simpl. lia. }
  destruct (decide (c' = 0)) as [->|Hne].
  { rewrite run_loop_no_frame in Hloop' by reflexivity. discriminate. }
  destruct (run_loop_sched c OPTReplacementAlgorithm (Some (p :: refs)) eq_refl
              _ _ _ _ (fresh_frames_ok c Hc) Hloop) as (m & Hs & Hcount).
  apply (sched_more_frames c c' _ _ _ Hcc) in Hs.
  destruct (OPT_loop_optimal c' (p :: refs) ltac:(lia) eq_refl (p :: refs) 0%nat
              (Build_RA c' 0 []) m eq_refl (fresh_frames_ok c' Hc') Hs)
    as (s2' & Hloop2 & Hle).
  rewrite Hloop' in Hloop2. inversion Hloop2; subst s2'.
  simpl in Hcount, Hle. lia.
Qed.

Lemma OPT_more_frames_witness : 8 <= 9.
Proof.
  apply (OPT_more_frames ref1 3 4 9 8); [lia| |]; vm_compute; reflexivity.
Defined.

(** X9. FIFO does show Belady's anomaly: there is a reference string on
    which the run with one more frame returns a strictly larger fault
    count. *)
Theorem FIFO_Belady_anomaly :
  exists (refs : list Z) (c n n' : Z),
    run_algorithm FIFOReplacementAlgorithm refs c None = Ok n /\
    run_algorithm FIFOReplacementAlgorithm refs (c + 1) None = Ok n' /\
    n < n'.
Proof.
  exists [1; 2; 3; 4; 1; 2; 5; 1; 2; 3; 4; 5], 3, 9, 10.
  split; [vm_compute; reflexivity|]. split; [vm_compute; reflexivity|lia].
Qed.

(** ** OPT with another lookahead than the reference string *)

(** X10. With at least one frame, OPT returns a fault count for whatever
    non-empty list is passed as [future_references], and this count is never
    below the count obtained with the reference string itself as lookahead:
    a wrong lookahead is tolerated and can only cost faults. *)
Theorem OPT_any_lookahead (refs future : list Z) (c : Z) :
  1 <= c -> future ≠ [] ->
  exists n n_opt,
    run_algorithm OPTReplacementAlgorithm refs c (Some future) = Ok n /\
    run_algorithm OPTReplacementAlgorithm refs c (Some refs) = Ok n_opt /\
    n_opt <= n.
Proof.
  intros Hc Hfut.
  assert (Hcall : well_called OPTReplacementAlgorithm (Some future)).
  { destruct future; [congruence|reflexivity]. }
  assert (Hfresh : frames_ok c (Build_RA c 0 [])) by (apply fresh_frames_ok; lia).
  destruct refs as [|p refs].
  { exists 0, 0. unfold run_algorithm, init.
    destruct (c <? 0) eqn:Hneg; [apply Z.ltb_lt in Hneg; lia|].
    repeat split. lia. }
  destruct (run_loop_returns c OPTReplacementAlgorithm (Some future) Hcall Hc
              (p :: refs) 0%nat (Build_RA c 0 []) Hfresh) as (s1 & Hloop).
  destruct (run_loop_sched c OPTReplacementAlgorithm (Some future) Hcall
              _ _ _ _ Hfresh Hloop) as (m & Hs & Hcount).
  destruct (OPT_loop_optimal c (p :: refs) Hc eq_refl (p :: refs) 0%nat
              (Build_RA c 0 []) m eq_refl Hfresh Hs) as (s2 & Hloop2 & Hle).
  exists (page_fault_count s1), (page_fault_count s2).
  unfold run_algorithm, init.
  destruct (c <? 0) eqn:Hneg; [apply Z.ltb_lt in Hneg; lia|].
  rewrite Hloop, Hloop2. simpl in Hcount, Hle.
  repeat split. lia.
Qed.

Lemma OPT_any_lookahead_witness :
  exists n n_opt,
    run_algorithm OPTReplacementAlgorithm ref1 3 (Some [0]) = Ok n /\
    run_algorithm OPTReplacementAlgorithm ref1 3 (Some ref1) = Ok n_opt /\
    n_opt <= n.
Proof.
  apply (OPT_any_lookahead ref1 [0] 3); [lia|discriminate].
Defined.

(** X11. When the lookahead is empty, as it is at the last access of a run,
    OPT serves the access exactly as FIFO does: a fault at capacity evicts
    the head of the frame list.  (On an instance without any frame both
    raise, with different exceptions.) *)
Theorem OPT_empty_lookahead_is_FIFO (page : Z) (self : ReplacementAlgorithm) :
  1 <= page_frame_count self \/ page_frames self ≠ [] ->
  OPT_insert page [] self = FIFO_insert page self.
Proof.
  destruct self as [c f frames]. simpl. intros Hdef.
  destruct (decide (page ∈ frames)) as [Hin|Hin].
  { rewrite OPT_insert_hit, FIFO_insert_hit by exact Hin. reflexivity. }
  destruct (Z_lt_le_dec (len frames) c) as [Hlt|Hge].
  { rewrite OPT_insert_room, FIFO_insert_room by assumption. reflexivity. }
  destruct frames as [|v rest].
  { exfalso. unfold len in Hge. simpl in Hge. destruct Hdef; [lia|congruence]. }
  rewrite (FIFO_insert_evict c f _ page v rest Hin Hge eq_refl).
  apply (OPT_insert_evict c f (v :: rest) page [] v rest Hin Hge).
  - reflexivity.
  - simpl. destruct (decide (v = v)); [reflexivity|congruence].
Qed.

Lemma OPT_empty_lookahead_is_FIFO_witness :
  OPT_insert 2 [] (Build_RA 3 3 [7; 0; 1])
    = FIFO_insert 2 (Build_RA 3 3 [7; 0; 1]).
Proof.
  apply (OPT_empty_lookahead_is_FIFO 2 (Build_RA 3 3 [7; 0; 1])).
  left. simpl. lia.
Defined.

(** * The experiment script: random workloads and [main] *)

(** ** What [print] receives *)

Inductive py_value : Type :=
  | PyStr (s : string)
  | PyInt (z : Z)
  | PyList (l : list Z).

(** One call of [print]: its positional arguments. *)
Definition print_call : Type := list py_value.

(** [str(z)] for an integer, as an f-string formats it. *)
Definition py_str (z : Z) : string := NilZero.string_of_int (Z.to_int z).

Definition newline : string := String (Ascii.ascii_of_nat 10) EmptyString.

(** The three [print] calls that report one workload, stopping at the first
    run that raises; [out] is what has been printed so far. *)
Definition report (reference_string : list Z) (frames : Z)
    (out : list print_call) : result unit * list print_call :=
  match run_algorithm FIFOReplacementAlgorithm reference_string frames None with
  | Raise e => (Raise e, out)
  | Ok fifo =>
      let out1 := out ++ [[PyStr "FIFO:"; PyInt fifo]] in
      match run_algorithm LRUReplacementAlgorithm reference_string frames None with
      | Raise e => (Raise e, out1)
      | Ok lru =>
          let out2 := out1 ++ [[PyStr "LRU:"; PyInt lru]] in
          match run_algorithm OPTReplacementAlgorithm reference_string frames
                  (Some reference_string) with
          | Raise e => (Raise e, out2)
          | Ok opt => (Ok tt, out2 ++ [[PyStr "OPT:"; PyInt opt]])
          end
      end
  end.

(** The reference strings and the configurations of [main]. *)
Definition reference_strings : list (list Z) :=
  [ [7;0;1;2;0;3;0;4;2;3;0;3;2;1;2;0;1;7;0;1];
    [8;1;0;7;3;0;3;4;5;3;5;2;0;6;8;4;8;1;5;3];
    [4;6;4;8;6;3;6;0;5;9;2;1;0;4;6;3;0;6;8;4] ].

Definition configurations : list (Z * Z) := [(15, 3); (15, 5); (15, 7)].

(** The first loop of [main], over the given reference strings. *)
Fixpoint given_strings_loop (strings : list (list Z)) (out : list print_call)
    : result unit * list print_call :=
  match strings with
  | [] => (Ok tt, out)
  | reference_string :: rest =>
      match report reference_string 3
              (out ++ [[PyStr "Reference String:"; PyList reference_string]]) with
      | (Ok _, out') => given_strings_loop rest out'
      | (Raise e, out') => (Raise e, out')
      end
  end.

Section RandomWorkload.

(** The state of the global generator of [random] and its [randint], which
    returns an integer between its two bounds, both included. *)
Variable rng : Type.
Variable randint : Z -> Z -> rng -> Z * rng.
Hypothesis randint_range :
  forall a b g, a <= b -> a <= (randint a b g).1 <= b.

(** [[random.randint(0, 9) for _ in range(n)]] *)
Fixpoint random_pages (n : nat) (g : rng) : list Z * rng :=
  match n with
  | O => ([], g)
  | S n' =>
      let (page, g1) := randint 0 9 g in
      let (pages, g2) := random_pages n' g1 in
      (page :: pages, g2)
  end.

(** [generate_random_reference_string]; [range] of a negative length is
    empty. *)
Definition generate_random_reference_string (length : Z) (g : rng)
    : list Z * rng :=
  random_pages (Z.to_nat length) g.

(** The second loop of [main], over the configurations. *)
Fixpoint configurations_loop (configs : list (Z * Z)) (g : rng)
    (out : list print_call) : result unit * list print_call * rng :=
  match configs with
  | [] => (Ok tt, out, g)
  | (length, frames) :: rest =>
      let (reference_string, g1) := generate_random_reference_string length g in
      let out1 :=
        out ++ [[PyStr (newline ++ "Random Reference String:");
                 PyList reference_string]] in
      let out2 :=
        out1 ++ [[PyStr ("Configuration: Length=" ++ py_str length
                         ++ ", Frames=" ++ py_str frames)]] in
      match report reference_string frames out2 with
      | (Ok _, out') => configurations_loop rest g1 out'
      | (Raise e, out') => (Raise e, out', g1)
      end
  end.

(** [main] *)
Definition main (g : rng) : result unit * list print_call * rng :=
  match given_strings_loop reference_strings [] with
  | (Ok _, out) => configurations_loop configurations g out
  | (Raise e, out) => (Raise e, out, g)
  end.

Lemma random_pages_spec n g :
  length (random_pages n g).1 = n /\
  Forall (fun page => 0 <= page <= 9) (random_pages n g).1.
Proof.
  revert g. induction n as [|n IH]; intros g; simpl.
  { split; [reflexivity|constructor]. }
  pose proof (randint_range 0 9 g ltac:(lia)) as Hrange.
  destruct (randint 0 9 g) as [page g1]. simpl in Hrange.
  specialize (IH g1). destruct (random_pages n g1) as [pages g2].
  simpl in *. destruct IH as [Hlen Hall]. split; [lia|].
  constructor; assumption.
Qed.

(** X12. [generate_random_reference_string] returns as many pages as asked
    for (none for a negative length), each between 0 and 9, so that the
    string never has more than ten distinct pages. *)
Theorem random_reference_string_spec (length : Z) (g : rng) :
  len (generate_random_reference_string length g).1 = Z.max 0 length /\
  Forall (fun page => 0 <= page <= 9)
    (generate_random_reference_string length g).1 /\
  distinct_pages (generate_random_reference_string length g).1 <= 10.
Proof.
  unfold generate_random_reference_string.
  destruct (random_pages_spec (Z.to_nat length) g) as [Hlen Hall].
  split; [unfold len; rewrite Hlen; lia|]. split; [exact Hall|].
  set (pages := (random_pages (Z.to_nat length) g).1) in *.
  rewrite <- size_distinct.
  assert (Hsub : (list_to_set pages : gset Z)
                 ⊆ list_to_set [0; 1; 2; 3; 4; 5; 6; 7; 8; 9]).
  { intros x Hx. apply elem_of_list_to_set in Hx.
    rewrite Forall_forall in Hall. apply Hall in Hx.
    apply elem_of_list_to_set. rewrite !elem_of_cons. lia. }
  apply subseteq_size in Hsub.
  assert (Hten : size (list_to_set [0; 1; 2; 3; 4; 5; 6; 7; 8; 9] : gset Z) = 10%nat)
    by (vm_compute; reflexivity).
  rewrite Hten in Hsub. lia.
Qed.

Lemma report_returns reference_string frames out :
  1 <= frames ->
  exists fifo lru opt,
    report reference_string frames out
      = (Ok tt, out ++ [[PyStr "FIFO:"; PyInt fifo]]
                    ++ [[PyStr "LRU:"; PyInt lru]]
                    ++ [[PyStr "OPT:"; PyInt opt]]) /\
    opt <= fifo /\ opt <= lru.
Proof.
  intros Hframes. unfold report.
  destruct (run_algorithm_returns FIFOReplacementAlgorithm reference_string
              frames (or_introl Hframes)) as (fifo & Hf).
  destruct (run_algorithm_returns LRUReplacementAlgorithm reference_string
              frames (or_introl Hframes)) as (lru & Hl).
  destruct (run_algorithm_returns OPTReplacementAlgorithm reference_string
              frames (or_introl Hframes)) as (opt & Ho).
  simpl in Hf, Hl, Ho. exists fifo, lru, opt. rewrite Hf, Hl, Ho.
  split; [rewrite <- !app_assoc; reflexivity|]. split.
  - exact (OPT_least_faults FIFOReplacementAlgorithm _ _ _ _ Hf Ho).
  - exact (OPT_least_faults LRUReplacementAlgorithm _ _ _ _ Hl Ho).
Qed.

Lemma configurations_loop_returns configs :
  Forall (fun config => 1 <= config.2) configs ->
  forall g out,
    exists out' g',
      configurations_loop configs g out = (Ok tt, out', g') /\
      length out' = (length out + 5 * length configs)%nat.
Proof.
  induction 1 as [|[length0 frames] configs Hframes _ IH]; intros g out.
  { exists out, g. split; [reflexivity|simpl; lia]. }
  simpl in Hframes. simpl configurations_loop.
  destruct (generate_random_reference_string length0 g) as [pages g1].
  match goal with
  | |- context [report pages frames ?o] =>
      destruct (report_returns pages frames o Hframes)
        as (fifo & lru & opt & Hrep & _);
      rewrite Hrep;
      destruct (IH g1 (o ++ [[PyStr "FIFO:"; PyInt fifo]]
                         ++ [[PyStr "LRU:"; PyInt lru]]
                         ++ [[PyStr "OPT:"; PyInt opt]]))
        as (out' & g' & Hloop & Hlen)
  end.
  exists out', g'. split; [exact Hloop|].
  rewrite Hlen. rewrite !length_app. simpl. lia.
Qed.

(** X13. [main] never raises, whatever the random generator returns: every
    run it starts has at least three frames.  It calls [print] 27 times:
    four times for each of the three given strings and five times for each
    of the three configurations. *)
Theorem main_returns (g : rng) :
  exists out g', main g = (Ok tt, out, g') /\ length out = 27%nat.
Proof.
  unfold main.
  assert (Hgiven : exists out, given_strings_loop reference_strings [] = (Ok tt, out)
                               /\ length out = 12%nat).
  { eexists. split; vm_compute; reflexivity. }
  destruct Hgiven as (out0 & -> & Hlen0).
  destruct (configurations_loop_returns configurations) with (g := g) (out := out0)
    as (out & g' & Hloop & Hlen).
  { repeat constructor; simpl; lia. }
  exists out, g'. split; [exact Hloop|]. rewrite Hlen, Hlen0. reflexivity.
Qed.

End RandomWorkload.

(** A generator for examples: a counter, clamped to the bounds asked for. *)
Definition counter_randint (a b : Z) (g : nat) : Z * nat :=
  (Z.max a (Z.min b (Z.of_nat g)), S g).

Lemma random_reference_string_spec_witness :
  len (generate_random_reference_string nat counter_randint 3 8%nat).1
    = Z.max 0 3 /\
  Forall (fun page => 0 <= page <= 9)
    (generate_random_reference_string nat counter_randint 3 8%nat).1 /\
  distinct_pages (generate_random_reference_string nat counter_randint 3 8%nat).1
    <= 10.
Proof.
  apply (random_reference_string_spec nat counter_randint).
  intros a b g Hab. unfold counter_randint. simpl. lia.
Defined.

(** * The unit tests of the source *)

(** The outcome of a test method: [assertEqual] fails the test with the two
    values that differ; any other exception is an error. *)
Inductive test_outcome : Type :=
  | TestPassed
  | TestFailed (first second : Z)
  | TestErrored (e : PyError).

(** [for page in reference_string: algorithm.insert(page)] *)
Fixpoint insert_each (cls : algorithm_class) (reference_string : list Z) : M unit :=
  match reference_string with
  | [] => mret tt
  | page :: rest => insert cls page None ;; insert_each cls rest
  end.

(** [for i, page in enumerate(reference_string):
       algorithm.insert(page, reference_string[i+1:])], from index [i] on. *)
Fixpoint insert_each_with_lookahead (cls : algorithm_class)
    (reference_string : list Z) (i : nat) (pages : list Z) : M unit :=
  match pages with
  | [] => mret tt
  | page :: rest =>
      insert cls page (Some (drop (S i) reference_string)) ;;
      insert_each_with_lookahead cls reference_string (S i) rest
  end.

(** [algorithm = cls(frames)], the loop, [algorithm.get_page_fault_count()]. *)
Definition count_after (frames : Z) (loop : M unit) : result Z :=
  match init frames with
  | Raise e => Raise e
  | Ok algorithm =>
      match loop algorithm with
      | (Ok _, algorithm') => Ok (get_page_fault_count algorithm')
      | (Raise e, _) => Raise e
      end
  end.

(** [self.assertEqual(first, second)], followed by the rest of the test. *)
Definition assertEqual (first : result Z) (second : Z)
    (rest : test_outcome) : test_outcome :=
  match first with
  | Raise e => TestErrored e
  | Ok n => if n =? second then rest else TestFailed n second
  end.

Definition test_fifo_algorithm : test_outcome :=
  assertEqual
    (count_after 3 (insert_each FIFOReplacementAlgorithm
       [7;0;1;2;0;3;0;4;2;3;0;3;2;1;2;0;1;7;0;1])) 15
  (assertEqual
    (count_after 4 (insert_each FIFOReplacementAlgorithm
       [4;6;4;8;6;3;6;0;5;9;2;1;0;4;6;3;0;6;8;4])) 10
   TestPassed).

Definition test_lru_algorithm : test_outcome :=
  assertEqual
    (count_after 3 (insert_each LRUReplacementAlgorithm
       [7;0;1;2;0;3;0;4;2;3;0;3;2;1;2;0;1;7;0;1])) 12
  (assertEqual
    (count_after 4 (insert_each LRUReplacementAlgorithm
       [4;6;4;8;6;3;6;0;5;9;2;1;0;4;6;3;0;6;8;4])) 10
   TestPassed).

Definition test_opt_algorithm : test_outcome :=
  let reference_string1 := [7;0;1;2;0;3;0;4;2;3;0;3;2;1;2;0;1;7;0;1] in
  let reference_string2 := [4;6;4;8;6;3;6;0;5;9;2;1;0;4;6;3;0;6;8;4] in
  assertEqual
    (count_after 3 (insert_each_with_lookahead OPTReplacementAlgorithm
       reference_string1 0 reference_string1)) 9
  (assertEqual
    (count_after 4 (insert_each_with_lookahead OPTReplacementAlgorithm
       reference_string2 0 reference_string2)) 8
   TestPassed).

Lemma insert_each_run_loop cls refs :
  forall i self, insert_each cls refs self = run_loop cls None i refs self.
Proof.
  induction refs as [|p refs IH]; intros i self; [reflexivity|].
  rewrite run_loop_cons. change (truthy None) with false. cbv iota.
  simpl insert_each.
  unfold mbind, M_bind.
  destruct (insert cls p None self) as [[[]|e] self1]; [apply IH|reflexivity].
Qed.

Lemma insert_each_with_lookahead_run_loop cls refs :
  truthy (Some refs) = true ->
  forall pages i self,
    insert_each_with_lookahead cls refs i pages self
      = run_loop cls (Some refs) i pages self.
Proof.
  intros Htruthy. induction pages as [|p pages IH]; intros i self; [reflexivity|].
  rewrite run_loop_cons, Htruthy. simpl insert_each_with_lookahead.
  unfold mbind, M_bind. simpl slice_from.
  destruct (insert cls p (Some (drop (S i) refs)) self) as [[[]|e] self1];
    [apply IH|reflexivity].
Qed.

(** X14. The loops of the unit tests compute what the driver computes: for
    every class, reference string and frame count, inserting the pages one
    by one into a new instance gives the outcome of [run_algorithm] without
    [future_references], and inserting them with the rest of the string as
    second argument gives the outcome of [run_algorithm] with the string as
    [future_references]. *)
Theorem test_loops_agree_with_driver (cls : algorithm_class) (refs : list Z)
    (frames : Z) :
  count_after frames (insert_each cls refs)
    = run_algorithm cls refs frames None /\
  count_after frames (insert_each_with_lookahead cls refs 0 refs)
    = run_algorithm cls refs frames (Some refs).
Proof.
  unfold count_after, run_algorithm. split.
  - destruct (init frames) as [algorithm|e]; [|reflexivity].
    rewrite (insert_each_run_loop cls refs 0%nat). reflexivity.
  - destruct (init frames) as [algorithm|e]; [|reflexivity].
    destruct refs as [|p refs]; [reflexivity|].
    rewrite (insert_each_with_lookahead_run_loop cls (p :: refs) eq_refl).
    reflexivity.
Qed.

(** X15. Each of the three test methods passes its first assertion (15, 12
    and 9 faults with three frames) and fails its second one: with four
    frames the second reference string gives 14, 15 and 11 faults where the
    tests expect 10, 10 and 8. *)
Theorem unit_tests_fail :
  test_fifo_algorithm = TestFailed 14 10 /\
  test_lru_algorithm = TestFailed 15 10 /\
  test_opt_algorithm = TestFailed 11 8.
Proof. repeat split; vm_compute; reflexivity. Qed.

(** * A single frame *)

(** The number of accesses in [refs] to a page other than the one accessed
    just before, [prev] being the page accessed before the first of them. *)
Fixpoint page_changes (prev : Z) (refs : list Z) : Z :=
  match refs with
  | [] => 0
  | page :: rest =>
      (if decide (page = prev) then 0 else 1) + page_changes page rest
  end.

Lemma single_frame_loop cls future :
  well_called cls future ->
  forall rest i f prev,
    exists f' q,
      run_loop cls future i rest (Build_RA 1 f [prev])
        = (Ok tt, Build_RA 1 f' [q]) /\
      f' = f + page_changes prev rest.
Proof.
  intros Hcall. induction rest as [|p rest IH]; intros i f prev.
  { exists f, prev. split; [reflexivity|simpl; lia]. }
  rewrite run_loop_step by exact Hcall.
  destruct (insert_returns cls p (slice_from future i) (Build_RA 1 f [prev]))
    as (self1 & Hins); [simpl; lia|].
  rewrite Hins. apply insert_step, paging_step_Ok_inv in Hins
    as [[Hp ->]|[(l1 & l2 & Hfr & Hl1 & ->)
       |[(Hp & Hroom & ->)|(Hp & Hfull & l1 & v & l2 & Hfr & Hl1 & ->)]]].
  - apply list_elem_of_singleton in Hp. subst p.
    destruct (IH (S i) f prev) as (f' & q & Hloop & Hf').
    exists f', q. split; [exact Hloop|].
    simpl. destruct (decide (prev = prev)); [lia|congruence].
  - destruct l1 as [|x l1]; [|destruct l1; discriminate].
    simpl in Hfr. inversion Hfr; subst. simpl.
    destruct (IH (S i) f p) as (f' & q & Hloop & Hf').
    exists f', q. split; [exact Hloop|].
    simpl. destruct (decide (p = p)); [lia|congruence].
  - unfold len in Hroom. simpl in Hroom. lia.
  - assert (Hne : p ≠ prev).
    { intros ->. apply Hp. apply list_elem_of_singleton. reflexivity. }
    destruct l1 as [|x l1]; [|destruct l1; discriminate].
    simpl in Hfr. injection Hfr as Hv Hl2. subst v l2. simpl.
    destruct (IH (S i) (f + 1) p) as (f' & q & Hloop & Hf').
    exists f', q. split; [exact Hloop|].
    simpl. destruct (decide (p = prev)); [congruence|lia].
Qed.

(** X16. With a single frame the three policies are the same policy: the
    driver returns, for each of them, one fault for the first access plus one
    for every access to a page other than the page accessed just before. *)
Theorem single_frame_count (cls : algorithm_class) (page : Z) (refs : list Z) :
  run_algorithm cls (page :: refs) 1 (full_lookahead cls (page :: refs))
    = Ok (1 + page_changes page refs).
Proof.
  pose proof (full_lookahead_well_called cls page refs) as Hcall.
  unfold run_algorithm. change (init 1) with (Ok (Build_RA 1 0 [])). cbv iota.
  rewrite run_loop_step by exact Hcall.
  destruct (insert_returns cls page
              (slice_from (full_lookahead cls (page :: refs)) 0)
              (Build_RA 1 0 [])) as (self1 & Hins); [simpl; lia|].
  rewrite Hins. apply insert_step, paging_step_Ok_inv in Hins
    as [[Hp ->]|[(l1 & l2 & Hfr & Hl1 & ->)
       |[(Hp & Hroom & ->)|(Hp & Hfull & l1 & v & l2 & Hfr & Hl1 & ->)]]].
  - inversion Hp.
  - destruct l1; discriminate.
  - simpl.
    destruct (single_frame_loop cls _ Hcall refs 1%nat (0 + 1) page)
      as (f' & q & Hloop & Hf').
    rewrite Hloop. unfold get_page_fault_count. simpl. f_equal. lia.
  - destruct l1; discriminate.
Qed.
